(** * LibreTranslate request core ([libretranslate/app.py])

    A shallow embedding of the request-handling core of the translation
    server: the emoji/translatability classifier, the quota rule builder and
    the [/translate] handler with its batch loop, together with the
    properties the specification states about them.

    Conventions.
    - A Python [str] is the list of its code points ([str := list Z]);
      [ord] of a one-character string is the code point itself.
    - A Python [int] is a [Z].  The floats of the hourly tiers
      ([0.75 ** (n - 1)] and the product an integer forms with it) are a
      parameter of the model ([float_ops]); what is proved about them
      assumes only that the arithmetic is exact where every value
      involved is representable, below [2^53].
    - A dict is a [gmap]; the [emojis] table is built with [list_to_map]
      from the very ranges of the source.
    - Exceptions are values of [exn]; code that may raise lives in the
      monad [M], which also threads the log of engine calls. *)

From Stdlib Require Import ZArith QArith List String Ascii Lia.
From stdpp Require Import base gmap list strings pretty.

#[local] Set Warnings "-register-all,-clear-no-such-hyp".

Local Open Scope Z_scope.

(** ** Python strings *)

(** A Python [str], as the sequence of its code points. *)
Definition str := list Z.

(** [ord(ch)]: characters are represented by their code point. *)
Definition ord (ch : Z) : Z := ch.

(** A string literal of the source (ASCII only). *)
Definition lit (s : string) : str :=
  (λ a, Z.of_N (N_of_ascii a)) <$> list_ascii_of_string s.

(** [range(a, b)]: the integers [a], ..., [b - 1]. *)
Definition range (a b : Z) : list Z := seqZ a (b - a).

(** A text as the handler meets it: a string, or (from a JSON body) a list
    of texts.  [detect_translatable] recurses through such lists. *)
Inductive pytext : Type :=
| Str (s : str)
| Lst (l : list pytext).

(** ** The emoji table (app.py, lines 13-24) *)

Definition emoji_codes : list Z :=
  [ord 32] ++                   (* Spaces *)
  range 0x1F600 0x1F64F ++      (* Emoticons *)
  range 0x1F300 0x1F5FF ++      (* Misc Symbols and Pictographs *)
  range 0x1F680 0x1F6FF ++      (* Transport and Map *)
  range 0x2600 0x26FF ++        (* Misc symbols *)
  range 0x2700 0x27BF ++        (* Dingbats *)
  range 0xFE00 0xFE0F ++        (* Variation Selectors *)
  range 0x1F900 0x1F9FF ++      (* Supplemental Symbols and Pictographs *)
  range 0x1F1E6 0x1F1FF ++      (* Flags *)
  range 0x20D0 0x20FF.          (* Combining Diacritical Marks for Symbols *)
(** [emojis = {e: True for e in ...}]. *)
Definition emojis : gmap Z bool :=
  list_to_map ((λ e, (e, true)) <$> emoji_codes).

(** [ord(ch) in emojis]. *)
Definition in_emojis (ch : Z) : bool :=
  bool_decide (is_Some (emojis !! ord ch)).

(** ** The classifier (app.py, lines 145-154) *)

(** The [for ch in src_texts] loop: [True] at the first character that is
    not in the table, [False] when the string is exhausted. *)
Fixpoint scan_chars (s : str) : bool :=
  match s with
  | [] => false
  | ch :: s' => if negb (in_emojis ch) then true else scan_chars s'
  end.

(** Python's [any] over a generator: stops at the first true element. *)
Definition py_any {A} (f : A → bool) : list A → bool :=
  fix go (l : list A) : bool :=
    match l with
    | [] => false
    | x :: l' => if f x then true else go l'
    end.

Fixpoint detect_translatable (src_texts : pytext) : bool :=
  match src_texts with
  | Lst l => py_any detect_translatable l
  | Str s => scan_chars s
  end.

(** The code points the table holds, range by range. *)
Definition decorative (c : Z) : Prop :=
  c = 32 ∨ 0x1F600 ≤ c < 0x1F64F ∨ 0x1F300 ≤ c < 0x1F5FF ∨
  0x1F680 ≤ c < 0x1F6FF ∨ 0x2600 ≤ c < 0x26FF ∨ 0x2700 ≤ c < 0x27BF ∨
  0xFE00 ≤ c < 0xFE0F ∨ 0x1F900 ≤ c < 0x1F9FF ∨ 0x1F1E6 ≤ c < 0x1F1FF ∨
  0x20D0 ≤ c < 0x20FF.

(** ** Exceptions and requests *)

(** The exceptions the handler meets, all subclasses of [Exception].
    [HTTPException status description] is what
    [flask.abort(status, description=...)] raises; the others carry their
    message; [EngineException msg] stands for an exception raised inside
    the translation engine. *)
Inductive exn : Type :=
| HTTPException (status : Z) (description : str)
| ValueError (msg : str)
| TypeError (msg : str)
| IndexError (msg : str)
| OverflowError (msg : str)
| EngineException (msg : str).

(** A computation that returns or raises. *)
Definition result (A : Type) : Type := exn + A.

Definition ret {A} (a : A) : result A := inr a.
Definition raise {A} (e : exn) : result A := inl e.
Definition abort {A} (code : Z) (description : str) : result A :=
  raise (HTTPException code description).

Definition rbind {A B} (c : result A) (k : A → result B) : result B :=
  match c with
  | inl e => inl e
  | inr a => k a
  end.

Notation "'let!' x ':=' c 'in' k" := (rbind c (λ x, k))
  (at level 10, x name, c at level 100, k at level 200).

(** The value a JSON body holds under ["alternatives"]. *)
Inductive json_alt : Type :=
| JInt (z : Z)
| JStr (s : str)
| JNull.

(** A JSON object body; [None] is an absent key or [null]. *)
Record json_dict : Type := {
  j_q : option pytext;
  j_source : option pytext;
  j_target : option pytext;
  j_alternatives : option json_alt;
  j_api_key : option str
}.

(** [request.values] of a form-encoded request. *)
Record form_values : Type := {
  f_q : option str;
  f_source : option str;
  f_target : option str;
  f_alternatives : option str;
  f_api_key : option str
}.

(** The ambient Flask request: a JSON body ([None] when the body is not an
    object) or form values. *)
Inductive request : Type :=
| JsonRequest (body : option json_dict)
| FormRequest (values : form_values).

(** Truth value of a string ([if s:]), of an optional one, of a text. *)
Definition str_truthy (s : str) : bool :=
  match s with [] => false | _ => true end.

Definition opt_truthy {A} (f : A → bool) (o : option A) : bool :=
  match o with None => false | Some a => f a end.

Definition text_truthy (t : pytext) : bool :=
  match t with
  | Str s => str_truthy s
  | Lst [] => false
  | Lst _ => true
  end.

(** [get_json_dict] (lines 62-66). *)
Definition get_json_dict (body : option json_dict) : result json_dict :=
  match body with
  | None => abort 400 (lit "Invalid JSON format")
  | Some d => ret d
  end.

(** [get_req_api_key] (lines 43-50). *)
Definition get_req_api_key (req : request) : result (option str) :=
  match req with
  | JsonRequest body => let! json := get_json_dict body in ret (j_api_key json)
  | FormRequest values => ret (f_api_key values)
  end.

(** ** The quota rule builder (lines 81-137) *)

(** Truncation of a rational towards zero: what [int] makes of a float
    that holds the rational exactly. *)
Definition py_trunc (q : Q) : Z := Z.quot (Qnum q) (Z.pos (Qden q)).

(** The floating-point arithmetic the builder uses: the floats, the power
    [0.75 ** e] for an integer [e] (which raises when the result is out of
    range) and [int(z * f)] for an integer [z] and a float [f] (which
    raises when [z] or the product is out of range). *)
Record float_ops : Type := {
  float : Type;
  pow_075 : Z → result float;
  int_mul_float : Z → float → result Z
}.

(** The [multiplier] argument of [get_req_limits]: the integer default [1]
    or a float. *)
Inductive multiplier (F : float_ops) : Type :=
| IntMult (m : Z)
| FloatMult (f : float F).

Arguments IntMult {F} m.
Arguments FloatMult {F} f.

(** [s * n] on a string: [n] copies ([n <= 0] gives the empty string). *)
Definition str_repeat (s : str) (n : Z) : str :=
  concat (replicate (Z.to_nat n) s).

(** The command-line arguments the builder reads. *)
Record Args : Type := {
  req_limit : Z;
  hourly_req_limit : Z;
  hourly_req_limit_decay : Z;
  daily_req_limit : Z
}.

(** A rule of the built sequence: the closures [minute_limits],
    [hourly_limits(n)] (which captures [n]) and [daily_limits]. *)
Inductive rule : Type :=
| minute_limits
| hourly_limits (n : Z)
| daily_limits.

#[global] Instance rule_eq_dec : EqDecision rule.
Proof. solve_decision. Defined.

(** What [api_keys_db.lookup] returns: [(req_limit, char_limit)]. *)
Definition key_limits : Type := Z * option Z.

Section Quota.

(** Python's [int] on a string: the number, or the exception raised. *)
Variable py_int : str → result Z.
(** [os.environ]. *)
Variable environ : gmap string str.
(** The API-key database, [None] when none is configured. *)
Variable api_keys_db : option (str → option key_limits).
(** The floats of the platform. *)
Variable F : float_ops.

(** [int(req_limit * multiplier)]: exact on integers, the platform's on a
    float. *)
Definition int_times (req_limit : Z) (m : multiplier F) : result Z :=
  match m with
  | IntMult k => ret (req_limit * k)
  | FloatMult f => int_mul_float F req_limit f
  end.

Definition get_req_limits (default_limit : Z) (db_multiplier : Z)
    (multiplier : multiplier F) (req : request) : result Z :=
  let! req_limit :=
    match api_keys_db with
    | Some lookup =>
        let! api_key := get_req_api_key req in
        if opt_truthy str_truthy api_key then
          match lookup (default [] api_key) with
          | Some api_key_limits => ret (api_key_limits.1 * db_multiplier)
          | None => ret default_limit
          end
        else ret default_limit
    | None => ret default_limit
    end in
  int_times req_limit multiplier.

Definition get_char_limit (default_limit : Z) (req : request) : result Z :=
  match api_keys_db with
  | Some lookup =>
      let! api_key := get_req_api_key req in
      if opt_truthy str_truthy api_key then
        match lookup (default [] api_key) with
        | Some (_, Some char_limit) => ret char_limit
        | _ => ret default_limit
        end
      else ret default_limit
  | None => ret default_limit
  end.

(** [int(os.environ.get(name, dflt))]: the default is an [int], a set
    variable is a string that [int] reads. *)
Definition env_int (name : string) (dflt : Z) : result Z :=
  match environ !! name with
  | None => ret dflt
  | Some s => py_int s
  end.

(** [int(os.environ.get(name, dflt) * n)]: the default is multiplied, a set
    variable is a string and is repeated [n] times before [int] reads it. *)
Definition env_times_int (name : string) (dflt : Z) (n : Z) : result Z :=
  match environ !! name with
  | None => ret (dflt * n)
  | Some s => py_int (str_repeat s n)
  end.

Definition show (z : Z) : str := lit (pretty z).

(** Calling a rule of [get_routes_limits args api_keys_db] under a
    request: the label the rate limiter parses. *)
Definition call_rule (args : Args) (r : rule) (req : request) : result str :=
  let default_req_limit :=
    if decide (req_limit args = -1) then 9999999999999 else req_limit args in
  match r with
  | minute_limits =>
      let! c := get_req_limits default_req_limit 1 (IntMult 1) req in
      ret (show c ++ lit " per minute")
  | hourly_limits n =>
      let! decay := pow_075 F (n - 1) in
      let! m := env_times_int "LT_HOURLY_REQ_LIMIT_MULTIPLIER" 60 n in
      let! c := get_req_limits (hourly_req_limit args * n) m (FloatMult decay) req in
      ret (show c ++ lit " per " ++ show n ++ lit " hour")
  | daily_limits =>
      let! m := env_int "LT_DAILY_REQ_LIMIT_MULTIPLIER" 1440 in
      let! c := get_req_limits (daily_req_limit args) m (IntMult 1) req in
      ret (show c ++ lit " per day")
  end.

Definition get_routes_limits (args : Args) : list rule :=
  let res := [minute_limits] in
  let res :=
    if decide (hourly_req_limit args > 0)
    then res ++ (hourly_limits <$> range 1 (hourly_req_limit_decay args + 2))
    else res in
  let res :=
    if decide (daily_req_limit args > 0) then res ++ [daily_limits] else res in
  res.

End Quota.

(** ** The translation handler (lines 229-458) *)

(** *** [filter_unique] (lines 139-142) *)

(** The comprehension [[x for x in seq if not (x in seen or seen_add(x))]]:
    [seen.add] returns [None], so an element is kept iff it is not in
    [seen], and it is then added. *)
Fixpoint filter_unique_from (seen : gset str) (seq : list str) : list str :=
  match seq with
  | [] => []
  | x :: seq' =>
      if decide (x ∈ seen) then filter_unique_from seen seq'
      else x :: filter_unique_from ({[x]} ∪ seen) seq'
  end.

Definition filter_unique (seq : list str) (extra : str) : list str :=
  let seen : gset str := {[extra; []]} in
  filter_unique_from seen seq.

(** *** Strings: [splitlines], [join] and [str(e)] *)

(** The line boundaries of [str.splitlines]. *)
Definition is_linebreak (c : Z) : bool :=
  bool_decide
    (c ∈ [0x0A; 0x0D; 0x0B; 0x0C; 0x1C; 0x1D; 0x1E; 0x85; 0x2028; 0x2029]).

(** [s.splitlines()]: the lines without their boundaries; a carriage
    return followed by a line feed is one boundary ([after_cr] tells that
    the previous character was a carriage return ending a line), and a
    final boundary opens no empty last line. *)
Fixpoint splitlines_from (after_cr : bool) (s : str) : list str :=
  match s with
  | [] => []
  | c :: s' =>
      if after_cr && (c =? 0x0A) then splitlines_from false s'
      else if is_linebreak c then [] :: splitlines_from (c =? 0x0D) s'
      else match splitlines_from false s' with
           | [] => [[c]]
           | line :: lines => (c :: line) :: lines
           end
  end.

Definition splitlines (s : str) : list str := splitlines_from false s.

(** [sep.join(parts)]. *)
Fixpoint join (sep : str) (parts : list str) : str :=
  match parts with
  | [] => []
  | [part] => part
  | part :: parts' => part ++ sep ++ join sep parts'
  end.

(** The reason phrase werkzeug gives a status (those [abort] is called
    with in this file). *)
Definition http_name (status : Z) : str :=
  if status =? 400 then lit "Bad Request"
  else if status =? 404 then lit "Not Found"
  else if status =? 500 then lit "Internal Server Error"
  else lit "Unknown Error".

(** [str(e)]: werkzeug prints an [HTTPException] as
    ["<status> <name>: <description>"]; the others print their message. *)
Definition exn_str (e : exn) : str :=
  match e with
  | HTTPException status description =>
      lit (pretty status) ++ lit " " ++ http_name status ++ lit ": " ++ description
  | ValueError msg | TypeError msg | IndexError msg | OverflowError msg
  | EngineException msg => msg
  end.

(** *** The engine and the monad of the handler *)

(** A candidate translation with its score. *)
Record hypothesis : Type := { value : str; score : Q }.

(** A translator of the engine: [hypotheses(text, count)] returns the
    candidates, the primary first, or raises.  The engine is taken to be
    deterministic: what a call returns depends on its arguments only. *)
Record Translator : Type := {
  hypotheses : pytext → Z → result (list hypothesis)
}.

(** A loaded language. *)
Record Language : Type := { code : str; name : str }.

(** A call of [translator.hypotheses], as the log records it. *)
Record engine_call : Type := {
  call_target : str;
  call_text : pytext;
  call_count : Z
}.

(** The handler's computations: they thread the log of engine calls and
    return or raise. *)
Definition M (A : Type) : Type := list engine_call → list engine_call * result A.

Definition mret {A} (a : A) : M A := λ log, (log, inr a).

Definition mbind {A B} (c : M A) (k : A → M B) : M B :=
  λ log,
    match c log with
    | (log', inl e) => (log', inl e)
    | (log', inr a) => k a log'
    end.

Definition lift {A} (r : result A) : M A := λ log, (log, r).

Definition mabort {A} (status : Z) (description : str) : M A :=
  lift (abort status description).

(** [try: body except Exception as e: handler(e)]. *)
Definition try_except {A} (body : M A) (handler : exn → M A) : M A :=
  λ log,
    match body log with
    | (log', inl e) => handler e log'
    | (log', inr a) => (log', inr a)
    end.

Notation "'let*' x ':=' c 'in' k" := (mbind c (λ x, k))
  (at level 10, x name, c at level 100, k at level 200).

(** [for x in l: s = body(x, s)] with the loop-carried state [s]. *)
Fixpoint for_each {A S} (l : list A) (body : A → S → M S) (s : S) : M S :=
  match l with
  | [] => mret s
  | x :: l' => let* s' := body x s in for_each l' body s'
  end.

(** The parameters as read from the request (lines 381-391). *)
Inductive alt_raw : Type :=
| AInt (z : Z)
| AStr (s : str).

Record raw_params : Type := {
  r_is_json : bool;
  r_q : option pytext;
  r_source_lang : option pytext;
  r_target_lang : option pytext;
  r_num_alternatives : alt_raw
}.

(** The parameters after the checks of lines 393-403. *)
Record params : Type := {
  is_json : bool;
  q : pytext;
  source_lang : pytext;
  target_lang : pytext;
  num_alternatives : Z
}.

Record detected : Type := { confidence : Q; language : pytext }.

(** The JSON the handler answers with. *)
Record response : Type := { translatedText : gmap str (list pytext) }.

(** [l.code == t] for a text [t]. *)
Definition text_eqb (t : pytext) (s : str) : bool :=
  match t with
  | Str s' => bool_decide (s' = s)
  | Lst _ => false
  end.

Section Translate.

(** Python's [int] on a string: the number, or the exception raised. *)
Variable py_int : str → result Z.
(** [libretranslate.language.iso2model], applied to what [.get] returned. *)
Variable iso2model : option pytext → option pytext.
(** [libretranslate.language.improve_translation_formatting]. *)
Variable improve_translation_formatting : pytext → str → str.
(** [html.unescape]. *)
Variable unescape : str → str.
(** [repr] of a list, as an f-string prints it. *)
Variable repr_list : list pytext → str.
(** [load_languages()] and [Language.get_translation]. *)
Variable languages : list Language.
Variable get_translation : Language → Language → option Translator.

(** [f"{t}"]. *)
Definition py_str (t : pytext) : str :=
  match t with
  | Str s => s
  | Lst l => repr_list l
  end.

(** [int(json.get("alternatives", 0))]. *)
Definition py_int_json (a : json_alt) : result Z :=
  match a with
  | JInt z => ret z
  | JStr s => py_int s
  | JNull =>
      raise (TypeError (lit "int() argument must be a string, a bytes-like object or a real number, not 'NoneType'"))
  end.

(** Lines 381-391. *)
Definition read_request (req : request) : result raw_params :=
  match req with
  | JsonRequest body =>
      let! json := get_json_dict body in
      let q := j_q json in
      let source_lang := iso2model (j_source json) in
      let target_lang := iso2model (j_target json) in
      let! num_alternatives :=
        py_int_json (default (JInt 0) (j_alternatives json)) in
      ret {| r_is_json := true; r_q := q; r_source_lang := source_lang;
             r_target_lang := target_lang;
             r_num_alternatives := AInt num_alternatives |}
  | FormRequest values =>
      let q := Str <$> f_q values in
      let source_lang := iso2model (Str <$> f_source values) in
      let target_lang := iso2model (Str <$> f_target values) in
      let num_alternatives := from_option AStr (AInt 0) (f_alternatives values) in
      ret {| r_is_json := false; r_q := q; r_source_lang := source_lang;
             r_target_lang := target_lang;
             r_num_alternatives := num_alternatives |}
  end.

(** [if not x: abort(400, description=msg)]. *)
Definition require (x : option pytext) (msg : str) : result pytext :=
  match x with
  | Some t => if text_truthy t then ret t else abort 400 msg
  | None => abort 400 msg
  end.

(** [int(num_alternatives)] on what line 386 or 391 left. *)
Definition py_int_raw (a : alt_raw) : result Z :=
  match a with
  | AInt z => ret z
  | AStr s => py_int s
  end.

(** Lines 393-403. *)
Definition check_params (r : raw_params) : result params :=
  let! q := require (r_q r) (lit "Invalid request: missing `q` parameter") in
  let! source_lang :=
    require (r_source_lang r) (lit "Invalid request: missing `source` parameter") in
  let! target_lang :=
    require (r_target_lang r) (lit "Invalid request: missing `target` parameter") in
  let! num_alternatives :=
    match py_int_raw (r_num_alternatives r) with
    | inr n => ret (Z.max 0 n)
    | inl (ValueError _) =>
        abort 400 (lit "Invalid request: `alternatives` parameter is not a number")
    | inl e => raise e
    end in
  ret {| is_json := r_is_json r; q := q; source_lang := source_lang;
         target_lang := target_lang; num_alternatives := num_alternatives |}.

Definition read_params (req : request) : result params :=
  let! r := read_request req in check_params r.

(** Lines 405-406: [q = "\n".join(q.splitlines())] for a form request (whose
    [q] is always a string). *)
Definition normalized_q (p : params) : pytext :=
  if is_json p then q p
  else match q p with
       | Str s => Str (join [0x0A] (splitlines s))
       | Lst l => Lst l
       end.

(** Line 408: [src_texts = q if isinstance(q, list) else [q]]. *)
Definition as_list (t : pytext) : list pytext :=
  match t with
  | Lst l => l
  | Str _ => [t]
  end.

Definition src_texts (p : params) : list pytext := as_list (normalized_q p).

(** Line 410: [max(1, len(q))], stored on the request for the limiter. *)
Definition req_cost (p : params) : Z :=
  Z.max 1 (match normalized_q p with
           | Str s => Z.of_nat (length s)
           | Lst l => Z.of_nat (length l)
           end).

(** Lines 412-416. *)
Definition translatable (p : params) : bool :=
  detect_translatable (Lst (src_texts p)).

Definition detected_src_lang (p : params) : detected :=
  if translatable p
  then {| confidence := 100; language := source_lang p |}
  else {| confidence := 0; language := Str (lit "en") |}.

(** Line 418: the first loaded language with the detected code. *)
Definition find_src_lang (p : params) : option Language :=
  head (filter (λ l, text_eqb (language (detected_src_lang p)) (code l) = true)
               languages).

(** Lines 424-428. *)
Definition target_selected (target_lang : pytext) (l : Language) : bool :=
  match target_lang with
  | Lst ts => existsb (λ t, text_eqb t (code l)) ts
  | Str s => bool_decide (code l = s)
  end.

Definition targets_of (p : params) : list Language :=
  filter (λ l, target_selected (target_lang p) l = true) languages.

(** [translator.hypotheses(text, count)], logged. *)
Definition call_hypotheses (tgt_lang : Language) (translator : Translator)
    (text : pytext) (count : Z) : M (list hypothesis) :=
  λ log,
    (log ++ [{| call_target := code tgt_lang; call_text := text;
                call_count := count |}],
     hypotheses translator text count).

(** [unescape(improve_translation_formatting(text, h.value))]. *)
Definition reformat (text : pytext) (h : hypothesis) : str :=
  unescape (improve_translation_formatting text (value h)).

Definition unavailable_message (src_lang tgt_lang : Language) : str :=
  name tgt_lang ++ lit "s (" ++ code tgt_lang ++
  lit "s) is not available as a target language from " ++
  name src_lang ++ lit "s (" ++ code src_lang ++ lit "s)".

(** Lines 438-448: one (segment, target) pair; returns [translated_text]
    and [alternatives]. *)
Definition translate_one (src_lang tgt_lang : Language) (translatable : bool)
    (num_alternatives : Z) (text : pytext) : M (pytext * list str) :=
  match get_translation src_lang tgt_lang with
  | None => mabort 400 (unavailable_message src_lang tgt_lang)
  | Some translator =>
      if translatable then
        let* hyps := call_hypotheses tgt_lang translator text (num_alternatives + 1) in
        match hyps with
        | [] => lift (raise (IndexError (lit "list index out of range")))
        | h0 :: rest =>
            let translated_text := reformat text h0 in
            let alternatives :=
              filter_unique (reformat text <$> rest) translated_text in
            mret (Str translated_text, alternatives)
        end
      else mret (text, [])
  end.

(** The loop-carried state: [batch_results] and [batch_alternatives]. *)
Definition batch_state : Type := gmap str (list pytext) * list (list str).

(** Lines 437-451: the loop over the segments for one target. *)
Definition translate_texts (src_lang tgt_lang : Language) (translatable : bool)
    (num_alternatives : Z) (texts : list pytext) : batch_state → M batch_state :=
  for_each texts (λ text st,
    let* r := translate_one src_lang tgt_lang translatable num_alternatives text in
    mret (alter (λ l, l ++ [r.1]) (code tgt_lang) st.1, st.2 ++ [r.2])).

(** Lines 433-451: the loop over the targets. *)
Definition translate_batch (src_lang : Language) (targets : list Language)
    (translatable : bool) (num_alternatives : Z) (texts : list pytext)
    : M batch_state :=
  for_each targets (λ tgt_lang st,
    translate_texts src_lang tgt_lang translatable num_alternatives texts
      (<[code tgt_lang := []]> st.1, st.2))
    (∅, []).

(** Lines 405-458. *)
Definition translate_core (p : params) : M response :=
  match find_src_lang p with
  | None => mabort 400 (py_str (source_lang p) ++ lit "s is not supported")
  | Some src_lang =>
      try_except
        (let targets := targets_of p in
         match targets with
         | [] => mabort 400 (py_str (target_lang p) ++ lit "s is not supported")
         | _ =>
             let* st := translate_batch src_lang targets (translatable p)
                          (num_alternatives p) (src_texts p) in
             mret {| translatedText := st.1 |}
         end)
        (λ e, mabort 500 (lit "Cannot translate text: " ++ exn_str e ++ lit "s"))
  end.

(** The [/translate] view function. *)
Definition translate (req : request) : M response :=
  let* p := lift (read_params req) in translate_core p.

End Translate.

(** ** Other helpers of the module *)

(** What [get_remote_address] reads of the request:
    [request.headers.getlist("X-Forwarded-For")] and
    [request.remote_addr]. *)
Record peer_info : Type := {
  forwarded_for : list str;
  remote_addr : option str
}.

(** [s.split(",")[0]]: the part of [s] before its first comma. *)
Fixpoint before_comma (s : str) : str :=
  match s with
  | [] => []
  | c :: s' => if c =? 44 then [] else c :: before_comma s'
  end.

(** [get_remote_address] (lines 69-75). *)
Definition get_remote_address (r : peer_info) : str :=
  match forwarded_for r with
  | first :: _ => before_comma first
  | [] =>
      match remote_addr r with
      | Some ip => if str_truthy ip then ip else lit "127.0.0.1"
      | None => lit "127.0.0.1"
      end
  end.

(** The stand-in object of lines 177-179, with its two attributes. *)
Definition auto_detect : Language :=
  {| code := lit "auto"; name := lit "Auto Detect" |}.

(** [frontend_argos_language_source] of [create_app] (lines 176-186):
    the stand-in for ["auto"], else the first loaded language with the
    configured code, else [languages[0]]. *)
Definition frontend_source (frontend_language_source : str)
    (languages : list Language) : result Language :=
  let found :=
    if decide (frontend_language_source = lit "auto") then Some auto_detect
    else head (filter (λ l, code l = frontend_language_source) languages) in
  match found with
  | Some l => ret l
  | None =>
      match languages with
      | l0 :: _ => ret l0
      | [] => raise (IndexError (lit "list index out of range"))
      end
  end.

(** ** Vocabulary of the statements, and the examples' data *)

(** No principal override applies to a request: no database, no usable key,
    or a key the database does not know. *)
Definition no_override (api_keys_db : option (str → option key_limits))
    (req : request) : Prop :=
  match api_keys_db with
  | None => True
  | Some lookup =>
      match get_req_api_key req with
      | inl _ => False
      | inr api_key =>
          opt_truthy str_truthy api_key = false ∨
          lookup (default [] api_key) = None
      end
  end.

(** The principal of the request has the override [lim]. *)
Definition has_override (api_keys_db : option (str → option key_limits))
    (req : request) (lim : key_limits) : Prop :=
  ∃ lookup api_key,
    api_keys_db = Some lookup ∧
    get_req_api_key req = inr (Some api_key) ∧
    str_truthy api_key = true ∧
    lookup api_key = Some lim.

(** An instance of [py_int] for the examples: signed ASCII decimal
    numerals.  Python's [int] reads these the same way (and accepts more:
    surrounding blanks, underscores between digits, other decimal digits). *)
Fixpoint digits_value (acc : Z) (s : str) : option Z :=
  match s with
  | [] => Some acc
  | c :: s' =>
      if (48 <=? c) && (c <=? 57) then digits_value (10 * acc + (c - 48)) s'
      else None
  end.

Definition signed_value (s : str) : option Z :=
  match s with
  | [] => None
  | c :: s' =>
      if c =? 45 then
        match s' with [] => None | _ => Z.opp <$> digits_value 0 s' end
      else if c =? 43 then
        match s' with [] => None | _ => digits_value 0 s' end
      else digits_value 0 s
  end.

Definition dec_int (s : str) : result Z :=
  match signed_value s with
  | Some z => ret z
  | None => raise (ValueError (lit "invalid literal for int() with base 10"))
  end.

(** The labels of the built rules. *)
Definition hour_label (c n : Z) : str :=
  show c ++ lit " per " ++ show n ++ lit " hour".

Definition minute_label (c : Z) : str := show c ++ lit " per minute".

(** Where binary64 arithmetic on [z] and [0.75 ** e] is exact: the power
    is [3^e / 4^e] and the product [z * 3^e / 4^e], so with [e >= 0] and
    [max(1, |z|) * 3^e < 2^53] the integer, the power and the product all
    fit the 53-bit significand and nothing is rounded. *)
Definition float_exact (z e : Z) : Prop :=
  0 ≤ e ∧ Z.max 1 (Z.abs z) * 3 ^ e < 2 ^ 53.

(** What is assumed of the platform's floats: in that range
    [int(z * 0.75 ** e)] raises nothing and is the truncated rational. *)
Definition ieee_exact (F : float_ops) : Prop :=
  ∀ z e, float_exact z e →
    (let! f := pow_075 F e in int_mul_float F z f) =
    ret (py_trunc (inject_Z z * Qpower (3 # 4) e)).

(** Floats without rounding, for the examples: the rationals. *)
Definition exact_floats : float_ops :=
  {| float := Q;
     pow_075 := λ e, ret (Qpower (3 # 4) e);
     int_mul_float := λ z f, ret (py_trunc (inject_Z z * f)) |}.

(** The [n]-th hourly ceiling as the specification words it:
    [hourlyLimit * n * hourlyMultiplier(n) * 0.75^(n-1)] with
    [hourlyMultiplier(n) = 60 * n]. *)
Definition worded_hourly_ceiling (hourly_limit n : Z) : Z :=
  py_trunc (inject_Z (hourly_limit * n * (60 * n)) * Qpower (3 # 4) (n - 1)).

(** The request of the examples: a form request carrying nothing. *)
Definition empty_form : form_values :=
  {| f_q := None; f_source := None; f_target := None;
     f_alternatives := None; f_api_key := None |}.

Definition args_60_2 : Args :=
  {| req_limit := 10; hourly_req_limit := 60; hourly_req_limit_decay := 2;
     daily_req_limit := 0 |}.

Definition args_unlimited : Args :=
  {| req_limit := -1; hourly_req_limit := -1; hourly_req_limit_decay := 2;
     daily_req_limit := -1 |}.

(** Running [f] over a list, stopping at the first exception. *)
Fixpoint collect {A B} (f : A → result B) (l : list A) : result (list B) :=
  match l with
  | [] => ret []
  | x :: l' =>
      let! b := f x in
      let! bs := collect f l' in
      ret (b :: bs)
  end.

(** [d] names [t]: the text occurs in the message. *)
Definition names_text (d t : str) : Prop := ∃ pre post, d = pre ++ t ++ post.

Section Outcomes.

Variable improve_translation_formatting : pytext → str → str.
Variable unescape : str → str.
Variable get_translation : Language → Language → option Translator.

(** What one (segment, target) step returns or raises, and the engine
    calls it makes, started on an empty log. *)
Definition pair_result (src_lang tgt_lang : Language) (translatable : bool)
    (num_alternatives : Z) (text : pytext) : result (pytext * list str) :=
  (translate_one improve_translation_formatting unescape get_translation
     src_lang tgt_lang translatable num_alternatives text []).2.

Definition pair_calls (src_lang tgt_lang : Language) (translatable : bool)
    (num_alternatives : Z) (text : pytext) : list engine_call :=
  (translate_one improve_translation_formatting unescape get_translation
     src_lang tgt_lang translatable num_alternatives text []).1.

(** The outcome of the whole batch, target by target. *)
Definition batch_outcome (src_lang : Language) (targets : list Language)
    (translatable : bool) (num_alternatives : Z) (texts : list pytext)
    : result (list (list (pytext * list str))) :=
  collect (λ tgt_lang,
             collect (pair_result src_lang tgt_lang translatable
                        num_alternatives) texts)
          targets.

End Outcomes.

(** The (target, segment) pairs of a batch in the order the loops visit
    them: target by target, each with all the segments. *)
Definition batch_pairs (targets : list Language) (texts : list pytext)
    : list (Language * pytext) :=
  concat ((λ t, (λ text, (t, text)) <$> texts) <$> targets).

(** [batch_alternatives]: the alternative lists of all pairs, in iteration
    order. *)
Definition all_alternatives (rss : list (list (pytext * list str)))
    : list (list str) :=
  concat ((λ rs : list (pytext * list str), snd <$> rs) <$> rss).

(** [batch_results] after the targets' sequences were stored in turn. *)
Definition store_results (m : gmap str (list pytext))
    (targets : list Language) (rss : list (list (pytext * list str)))
    : gmap str (list pytext) :=
  foldl (λ m (tr : Language * list (pytext * list str)),
           <[code tr.1 := fst <$> tr.2]> m)
        m (zip targets rss).

(** *** The data of the examples *)

Definition en : Language := {| code := lit "en"; name := lit "English" |}.
Definition es : Language := {| code := lit "es"; name := lit "Spanish" |}.
Definition fr : Language := {| code := lit "fr"; name := lit "French" |}.

Definition example_languages : list Language := [en; es; fr].

Definition candidate (s : string) : hypothesis := {| value := lit s; score := 0 |}.

(** A translator that offers the same candidates for every text, at most
    [count] of them. *)
Definition hola_translator : Translator :=
  {| hypotheses := λ _ count,
       ret (take (Z.to_nat count)
              [candidate "Hola"; candidate "Buenas"; candidate "Hola";
               candidate ""; candidate "Buenas"; candidate "Saludos"]) |}.

(** A translator that knows the text ["Hi"] only and raises on any other. *)
Definition picky_translator : Translator :=
  {| hypotheses := λ text _,
       if text_eqb text (lit "Hi") then ret [candidate "Hola"]
       else raise (EngineException (lit "boom")) |}.

(** [["Hi", "Hello", "Bye"]]. *)
Definition greetings : pytext :=
  Lst [Str (lit "Hi"); Str (lit "Hello"); Str (lit "Bye")].

(** A translator whose engine raises on every text. *)
Definition boom_translator : Translator :=
  {| hypotheses := λ _ _, raise (EngineException (lit "boom")) |}.

(** Registries with one pair, English to Spanish. *)
Definition pair_en_es (tr : Translator) (src_lang tgt_lang : Language)
    : option Translator :=
  if bool_decide (code src_lang = lit "en") && bool_decide (code tgt_lang = lit "es")
  then Some tr else None.

Definition plain_formatting (text : pytext) (s : str) : str := s.
Definition no_escapes (s : str) : str := s.
Definition same_code (x : option pytext) : option pytext := x.
Definition short_repr (l : list pytext) : str := lit "[...]".

(** The handler over the example registry. *)
Definition example_translate (tr : Translator) : request → M response :=
  translate dec_int same_code plain_formatting no_escapes short_repr
    example_languages (pair_en_es tr).

Definition json_request (q : pytext) (source target : string)
    (alternatives : option json_alt) : request :=
  JsonRequest (Some {| j_q := Some q; j_source := Some (Str (lit source));
                       j_target := Some (Str (lit target));
                       j_alternatives := alternatives; j_api_key := None |}).

Definition form_request (q source target : string) (alternatives : option string)
    : request :=
  FormRequest {| f_q := Some (lit q); f_source := Some (lit source);
                 f_target := Some (lit target);
                 f_alternatives := lit <$> alternatives; f_api_key := None |}.

(** [["Hello"]] and the one-emoji text [["\U0001F600"]]. *)
Definition hello : pytext := Lst [Str (lit "Hello")].
Definition grin : pytext := Lst [Str [0x1F600]].

(** The parameters the checks leave for the example requests. *)
Definition example_params (q : pytext) (target : string) (k : Z) : params :=
  {| is_json := true; q := q; source_lang := Str (lit "en");
     target_lang := Str (lit target); num_alternatives := k |}.

(** The answer with one target. *)
Definition single_answer (target : string) (texts : list pytext) : response :=
  {| translatedText := {[ lit target := texts ]} |}.

(** The engine call of the examples. *)
Definition hello_call (k : Z) : engine_call :=
  {| call_target := lit "es"; call_text := Str (lit "Hello"); call_count := k |}.

(** The engine calls of a batch: one per target and segment, target-major. *)
Definition batch_calls (targets : list Language) (texts : list pytext)
    (count : Z) : list engine_call :=
  concat ((λ t, (λ text, {| call_target := code t; call_text := text;
                            call_count := count |}) <$> texts) <$> targets).

(** A JSON body with its [alternatives] key removed. *)
Definition without_alternatives (d : json_dict) : json_dict :=
  {| j_q := j_q d; j_source := j_source d; j_target := j_target d;
     j_alternatives := None; j_api_key := j_api_key d |}.

(** Parameters with another requested source, another requested target. *)
Definition with_source (p : params) (s : pytext) : params :=
  {| is_json := is_json p; q := q p; source_lang := s;
     target_lang := target_lang p; num_alternatives := num_alternatives p |}.

Definition with_target (p : params) (t : pytext) : params :=
  {| is_json := is_json p; q := q p; source_lang := source_lang p;
     target_lang := t; num_alternatives := num_alternatives p |}.

Lemma elem_of_range a b c : c ∈ range a b ↔ a ≤ c < b.
Proof. unfold range. rewrite elem_of_seqZ. lia. Qed.

Lemma elem_of_emoji_codes c : c ∈ emoji_codes ↔ decorative c.
Proof.
  unfold emoji_codes, decorative, ord.
  rewrite !elem_of_app, !elem_of_range, list_elem_of_singleton.
  tauto.
Qed.

Lemma table_lookup_is_Some (l : list Z) c :
  is_Some ((list_to_map ((λ e, (e, true)) <$> l) : gmap Z bool) !! c) ↔ c ∈ l.
Proof.
  split.
  - intros [b Hb]. apply elem_of_list_to_map_2 in Hb.
    apply list_elem_of_fmap in Hb as (e & Heq & He).
    inversion Heq; subst. exact He.
  - intros Hc.
    destruct ((list_to_map ((λ e, (e, true)) <$> l) : gmap Z bool) !! c)
      as [b|] eqn:E; [eauto|].
    apply not_elem_of_list_to_map in E. exfalso. apply E.
    apply list_elem_of_fmap. exists (c, true). split; [reflexivity|].
    apply list_elem_of_fmap. exists c. split; [reflexivity | exact Hc].
Qed.

Lemma emojis_lookup_is_Some c : is_Some (emojis !! c) ↔ c ∈ emoji_codes.
Proof. unfold emojis. apply table_lookup_is_Some. Qed.

#[global] Opaque emoji_codes emojis.

Lemma in_emojis_true c : in_emojis c = true ↔ decorative c.
Proof.
  unfold in_emojis, ord. rewrite bool_decide_eq_true.
  rewrite emojis_lookup_is_Some. apply elem_of_emoji_codes.
Qed.

Lemma scan_chars_false s :
  scan_chars s = false ↔ ∀ ch, ch ∈ s → in_emojis ch = true.
Proof.
  induction s as [|ch s IH]; simpl.
  - split; [intros _ ch Hch; inversion Hch | reflexivity].
  - destruct (in_emojis ch) eqn:E; simpl.
    + rewrite IH. split.
      * intros H c Hc. apply elem_of_cons in Hc as [->|Hc];
          [exact E | exact (H c Hc)].
      * intros H c Hc. apply H. apply list_elem_of_further. exact Hc.
    + split; [discriminate|]. intros H.
      specialize (H ch (list_elem_of_here _ _)). congruence.
Qed.

Lemma scan_chars_true s :
  scan_chars s = true ↔ ∃ ch, ch ∈ s ∧ in_emojis ch = false.
Proof.
  induction s as [|ch s IH]; simpl.
  - split; [discriminate | intros (c & Hc & _); inversion Hc].
  - destruct (in_emojis ch) eqn:E; simpl.
    + rewrite IH. split.
      * intros (c & Hc & Hn). exists c. split; [by right | done].
      * intros (c & Hc & Hn). apply elem_of_cons in Hc as [->|Hc];
          [congruence | eauto].
    + split; [|reflexivity]. intros _. exists ch. split; [by left | done].
Qed.

Lemma py_any_true {A} (f : A → bool) l :
  py_any f l = true ↔ ∃ x, x ∈ l ∧ f x = true.
Proof.
  induction l as [|x l IH]; simpl.
  - split; [discriminate | intros (y & Hy & _); inversion Hy].
  - destruct (f x) eqn:E.
    + split; [|reflexivity]. intros _. exists x. split; [by left | done].
    + rewrite IH. split.
      * intros (y & Hy & Hf). exists y. split; [by right | done].
      * intros (y & Hy & Hf). apply elem_of_cons in Hy as [->|Hy];
          [congruence | eauto].
Qed.

Lemma py_any_false {A} (f : A → bool) l :
  py_any f l = false ↔ ∀ x, x ∈ l → f x = false.
Proof.
  rewrite <- not_true_iff_false, py_any_true. split.
  - intros H x Hx. apply not_true_iff_false. intros Hf. apply H. eauto.
  - intros H (x & Hx & Hf). rewrite (H x Hx) in Hf. discriminate.
Qed.


Lemma in_emojis_None c : in_emojis c = false ↔ emojis !! ord c = None.
Proof.
  unfold in_emojis. rewrite bool_decide_eq_false.
  rewrite <- eq_None_not_Some. reflexivity.
Qed.


Lemma get_req_limits_default db F default_limit db_multiplier multiplier req :
  no_override db req →
  get_req_limits db F default_limit db_multiplier multiplier req =
  int_times F default_limit multiplier.
Proof.
  unfold no_override, get_req_limits. destruct db as [lookup|]; [|reflexivity].
  destruct (get_req_api_key req) as [e|api_key]; [intros []|].
  cbn [rbind]. intros [-> | Hl]; [reflexivity|].
  destruct (opt_truthy str_truthy api_key); [|reflexivity].
  rewrite Hl. reflexivity.
Qed.

Lemma get_req_limits_override db F default_limit db_multiplier multiplier req lim :
  has_override db req lim →
  get_req_limits db F default_limit db_multiplier multiplier req =
  int_times F (lim.1 * db_multiplier) multiplier.
Proof.
  intros (lookup & api_key & -> & Hk & Ht & Hl). unfold get_req_limits.
  rewrite Hk. simpl. rewrite Ht, Hl. reflexivity.
Qed.

Lemma exact_floats_exact : ieee_exact exact_floats.
Proof. intros z e _. reflexivity. Qed.

Lemma elem_of_hourly_routes args n :
  hourly_limits n ∈ get_routes_limits args ↔
  hourly_req_limit args > 0 ∧ 1 ≤ n ≤ hourly_req_limit_decay args + 1.
Proof.
  unfold get_routes_limits.
  assert (Hh : ∀ l : list Z, hourly_limits n ∈ hourly_limits <$> l ↔ n ∈ l).
  { intros l. rewrite list_elem_of_fmap. split.
    - intros (m & [= ->] & Hm). exact Hm.
    - intros Hn. exists n. split; [reflexivity | exact Hn]. }
  destruct (decide (hourly_req_limit args > 0)) as [Hpos|Hneg];
    destruct (decide (daily_req_limit args > 0));
    rewrite ?elem_of_app, ?Hh, ?elem_of_range, ?list_elem_of_singleton;
    split; intros H; try lia;
    repeat match goal with
           | H : _ ∨ _ |- _ => destruct H
           | H : _ ∧ _ |- _ => destruct H
           | H : _ = _ |- _ => discriminate H
           end;
    try (split; lia); try lia; try tauto.
  all: try (left; right; lia); try (right; lia).
Qed.

Lemma elem_of_daily_routes args :
  daily_limits ∈ get_routes_limits args ↔ daily_req_limit args > 0.
Proof.
  unfold get_routes_limits.
  destruct (decide (hourly_req_limit args > 0));
    destruct (decide (daily_req_limit args > 0));
    rewrite ?elem_of_app, ?list_elem_of_fmap, ?list_elem_of_singleton;
    split; intros H; try done; try lia; try (right; reflexivity).
  all: repeat match goal with
              | H : _ ∨ _ |- _ => destruct H
              | H : ∃ _, _ |- _ => destruct H as (? & ? & ?)
              end; try discriminate; try lia.
Qed.

Lemma elem_of_minute_routes args : minute_limits ∈ get_routes_limits args.
Proof.
  unfold get_routes_limits.
  destruct (decide (hourly_req_limit args > 0));
    destruct (decide (daily_req_limit args > 0));
    rewrite ?elem_of_app, ?list_elem_of_singleton; tauto.
Qed.

#[global] Instance hourly_limits_inj : Inj (=) (=) hourly_limits.
Proof. intros n m [= ->]. reflexivity. Qed.

Lemma NoDup_routes args : NoDup (get_routes_limits args).
Proof.
  unfold get_routes_limits.
  assert (Hh : NoDup (hourly_limits <$> range 1 (hourly_req_limit_decay args + 2))).
  { apply (NoDup_fmap_2 _). apply NoDup_seqZ. }
  assert (Hm : ∀ l : list Z, minute_limits ∉ hourly_limits <$> l).
  { intros l (m & [=] & _)%list_elem_of_fmap. }
  assert (Hd : ∀ l : list Z, daily_limits ∉ hourly_limits <$> l).
  { intros l (m & [=] & _)%list_elem_of_fmap. }
  destruct (decide (hourly_req_limit args > 0));
    destruct (decide (daily_req_limit args > 0)).
  - apply NoDup_app. split; [|split].
    + apply NoDup_app. split; [apply NoDup_singleton|]. split; [|exact Hh].
      intros x ->%list_elem_of_singleton. apply Hm.
    + intros x [->%list_elem_of_singleton | Hx]%elem_of_app
               Hx'%list_elem_of_singleton; [discriminate|].
      subst x. exact (Hd _ Hx).
    + apply NoDup_singleton.
  - apply NoDup_app. split; [apply NoDup_singleton|]. split; [|exact Hh].
    intros x ->%list_elem_of_singleton. apply Hm.
  - apply NoDup_app. split; [apply NoDup_singleton|].
    split; [|apply NoDup_singleton].
    intros x ->%list_elem_of_singleton Hx%list_elem_of_singleton. discriminate.
  - apply NoDup_singleton.
Qed.

Lemma call_hourly_default py_int environ db F args n req :
  environ !! "LT_HOURLY_REQ_LIMIT_MULTIPLIER" = None →
  no_override db req →
  ieee_exact F →
  float_exact (hourly_req_limit args * n) (n - 1) →
  call_rule py_int environ db F args (hourly_limits n) req =
  ret (hour_label
         (py_trunc (inject_Z (hourly_req_limit args * n) * Qpower (3 # 4) (n - 1)))
         n).
Proof.
  intros He Hno HF Hz. unfold call_rule, env_times_int. rewrite He.
  specialize (HF _ _ Hz).
  destruct (pow_075 F (n - 1)) as [e|f]; [discriminate HF|].
  cbn [rbind ret] in *.
  rewrite (get_req_limits_default _ _ _ _ _ _ Hno). cbn [int_times].
  rewrite HF. reflexivity.
Qed.

Lemma call_hourly_override py_int environ db F args n req lim :
  environ !! "LT_HOURLY_REQ_LIMIT_MULTIPLIER" = None →
  has_override db req lim →
  ieee_exact F →
  float_exact (lim.1 * (60 * n)) (n - 1) →
  call_rule py_int environ db F args (hourly_limits n) req =
  ret (hour_label
         (py_trunc (inject_Z (lim.1 * (60 * n)) * Qpower (3 # 4) (n - 1))) n).
Proof.
  intros He Hov HF Hz. unfold call_rule, env_times_int. rewrite He.
  specialize (HF _ _ Hz).
  destruct (pow_075 F (n - 1)) as [e|f]; [discriminate HF|].
  cbn [rbind ret] in *.
  rewrite (get_req_limits_override _ _ _ _ _ _ _ Hov). cbn [int_times].
  rewrite HF. reflexivity.
Qed.

Lemma float_exact_60_2 n :
  1 ≤ n ≤ 3 → float_exact (hourly_req_limit args_60_2 * n) (n - 1).
Proof.
  intros Hn. assert (Hc : n = 1 ∨ n = 2 ∨ n = 3) by lia.
  destruct Hc as [-> | [-> | ->]]; split; vm_compute; congruence.
Qed.

(** C8 (as the code has it).  With a positive hourly limit the builder adds
    exactly one hourly rule for each [n] in [1 .. decay + 1].  With the
    multiplier variable unset and floats that are exact where
    [limit * 3^(n-1) < 2^53], the [n]-th ceiling of a request without a
    principal override is [int(hourlyLimit * n * 0.75^(n-1))]: the
    multiplier [60 * n] scales only a principal's own rate, whose ceiling
    is [int(rate * 60 * n * 0.75^(n-1))].  For limit 60 and two decay steps
    the ceilings are 60, 90 and 101, and consecutive ones satisfy
    [ceiling(n+1) / ceiling(n) < (n+1) / n]. *)
Theorem hourly_rules_spec py_int environ db F args req :
  hourly_req_limit args > 0 →
  environ !! "LT_HOURLY_REQ_LIMIT_MULTIPLIER" = None →
  ieee_exact F →
  (∀ n, hourly_limits n ∈ get_routes_limits args ↔
        1 ≤ n ≤ hourly_req_limit_decay args + 1) ∧
  NoDup (get_routes_limits args) ∧
  (no_override db req → ∀ n,
     float_exact (hourly_req_limit args * n) (n - 1) →
     call_rule py_int environ db F args (hourly_limits n) req =
     ret (hour_label
            (py_trunc (inject_Z (hourly_req_limit args * n) *
                       Qpower (3 # 4) (n - 1))) n)) ∧
  (∀ lim, has_override db req lim → ∀ n,
     float_exact (lim.1 * (60 * n)) (n - 1) →
     call_rule py_int environ db F args (hourly_limits n) req =
     ret (hour_label
            (py_trunc (inject_Z (lim.1 * (60 * n)) * Qpower (3 # 4) (n - 1)))
            n)) ∧
  (get_routes_limits args_60_2 =
     [minute_limits; hourly_limits 1; hourly_limits 2; hourly_limits 3] ∧
   call_rule py_int environ None F args_60_2 (hourly_limits 1) req =
     ret (hour_label 60 1) ∧
   call_rule py_int environ None F args_60_2 (hourly_limits 2) req =
     ret (hour_label 90 2) ∧
   call_rule py_int environ None F args_60_2 (hourly_limits 3) req =
     ret (hour_label 101 3) ∧
   (inject_Z 90 / inject_Z 60 < 2 # 1)%Q ∧
   (inject_Z 101 / inject_Z 90 < 3 # 2)%Q).
Proof.
  intros Hpos He HF. split; [|split; [|split; [|split]]].
  - intros n. rewrite elem_of_hourly_routes. tauto.
  - apply NoDup_routes.
  - intros Hno n Hz. apply call_hourly_default; assumption.
  - intros lim Hov n Hz. apply call_hourly_override; assumption.
  - split; [reflexivity|].
    rewrite !(call_hourly_default py_int environ None F args_60_2 _ req He I HF)
      by (apply float_exact_60_2; lia).
    repeat split; reflexivity.
Qed.

Lemma hourly_rules_spec_witness :
  hourly_req_limit args_60_2 > 0 ∧
  (∅ : gmap string str) !! "LT_HOURLY_REQ_LIMIT_MULTIPLIER" = None ∧
  ieee_exact exact_floats ∧
  float_exact (hourly_req_limit args_60_2 * 2) (2 - 1) ∧
  call_rule dec_int ∅ None exact_floats args_60_2 (hourly_limits 2)
    (FormRequest empty_form) = ret (hour_label 90 2).
Proof.
  split; [reflexivity|]. split; [reflexivity|].
  split; [exact exact_floats_exact|].
  assert (Hz : float_exact (hourly_req_limit args_60_2 * 2) (2 - 1))
    by (apply float_exact_60_2; lia).
  split; [exact Hz|].
  destruct (hourly_rules_spec dec_int ∅ None exact_floats args_60_2
              (FormRequest empty_form) eq_refl (lookup_empty _)
              exact_floats_exact)
    as (_ & _ & H & _).
  exact (H I 2 Hz).
Defined.

(** C8, the claim as worded: at limit 60, [n = 1] and no override the code's
    ceiling is 60 (on any floats exact at these values), not
    [60 * 1 * (60 * 1) * 0.75^0 = 3600]. *)
Lemma hourly_ceiling_counterexample :
  (∀ F, ieee_exact F →
     call_rule dec_int ∅ None F args_60_2 (hourly_limits 1)
       (FormRequest empty_form) = ret (hour_label 60 1)) ∧
  worded_hourly_ceiling 60 1 = 3600 ∧
  (∀ F, ieee_exact F →
     call_rule dec_int ∅ None F args_60_2 (hourly_limits 1)
       (FormRequest empty_form) ≠
     ret (hour_label (worded_hourly_ceiling 60 1) 1)).
Proof.
  assert (H : ∀ F, ieee_exact F →
            call_rule dec_int ∅ None F args_60_2 (hourly_limits 1)
              (FormRequest empty_form) = ret (hour_label 60 1)).
  { intros F HF.
    rewrite (call_hourly_default dec_int ∅ None F args_60_2 1
               (FormRequest empty_form) (lookup_empty _) I HF)
      by (apply float_exact_60_2; lia).
    reflexivity. }
  split; [exact H|]. split; [reflexivity|]. intros F HF Hc.
  rewrite (H F HF) in Hc. vm_compute in Hc. discriminate Hc.
Qed.

(** C9 (as the code has it).  Only the minute tier maps a configured [-1]
    to the sentinel: its rule is always built and, when the configured
    value is [-1] and the request has no principal override, its ceiling is
    9999999999999 (at least [10^12]).  An hourly or daily limit of [-1], or
    any value [<= 0], fails the guard [> 0], and that tier's rule is left
    out of the built sequence. *)
Theorem unlimited_sentinel_spec py_int environ db F args req :
  minute_limits ∈ get_routes_limits args ∧
  (req_limit args = -1 → no_override db req →
   call_rule py_int environ db F args minute_limits req =
     ret (minute_label 9999999999999)) ∧
  (10 ^ 12 <= 9999999999999)%Z ∧
  (hourly_req_limit args ≤ 0 → ∀ n, hourly_limits n ∉ get_routes_limits args) ∧
  (daily_req_limit args ≤ 0 → daily_limits ∉ get_routes_limits args).
Proof.
  split; [apply elem_of_minute_routes|].
  split; [|split; [lia|split]].
  - intros Hreq Hno. unfold call_rule.
    rewrite (get_req_limits_default _ _ _ _ _ _ Hno).
    cbn [rbind ret int_times]. rewrite Z.mul_1_r.
    destruct (decide (req_limit args = -1)); [reflexivity | contradiction].
  - intros Hh n [Hpos _]%elem_of_hourly_routes. lia.
  - intros Hd Hin%elem_of_daily_routes. lia.
Qed.

Lemma unlimited_sentinel_spec_witness :
  req_limit args_unlimited = -1 ∧
  no_override None (FormRequest empty_form) ∧
  hourly_req_limit args_unlimited ≤ 0 ∧
  daily_req_limit args_unlimited ≤ 0 ∧
  call_rule dec_int ∅ None exact_floats args_unlimited minute_limits
    (FormRequest empty_form) = ret (minute_label 9999999999999) ∧
  (∀ n, hourly_limits n ∉ get_routes_limits args_unlimited) ∧
  daily_limits ∉ get_routes_limits args_unlimited.
Proof.
  split; [reflexivity|]. split; [exact I|].
  assert (Hh : hourly_req_limit args_unlimited ≤ 0) by (simpl; lia).
  assert (Hd : daily_req_limit args_unlimited ≤ 0) by (simpl; lia).
  split; [exact Hh|]. split; [exact Hd|].
  destruct (unlimited_sentinel_spec dec_int ∅ None exact_floats args_unlimited
              (FormRequest empty_form)) as (_ & Hm & _ & Hhr & Hdr).
  split; [exact (Hm eq_refl I)|]. split; [exact (Hhr Hh)|exact (Hdr Hd)].
Defined.

(** C9, the claim as worded: with every tier configured as [-1] the built
    sequence holds the minute rule alone; the hourly and daily rules are
    skipped, not given a sentinel ceiling. *)
Lemma unlimited_tiers_counterexample :
  get_routes_limits args_unlimited = [minute_limits] ∧
  (¬ ∃ n, hourly_limits n ∈ get_routes_limits args_unlimited) ∧
  daily_limits ∉ get_routes_limits args_unlimited.
Proof.
  split; [reflexivity|]. split.
  - intros (n & [Hpos _]%elem_of_hourly_routes). simpl in Hpos. lia.
  - intros Hin%elem_of_daily_routes. simpl in Hin. lia.
Qed.


(** ** Facts about [filter_unique] *)

Lemma elem_of_filter_unique_from seen seq x :
  x ∈ filter_unique_from seen seq ↔ x ∈ seq ∧ x ∉ seen.
Proof.
  revert seen. induction seq as [|y seq IH]; intros seen; simpl.
  - split; [intros H; inversion H | intros [H _]; inversion H].
  - destruct (decide (y ∈ seen)) as [Hy|Hy].
    + rewrite IH, elem_of_cons. split.
      * intros [Hx Hn]. auto.
      * intros [[->|Hx] Hn]; [contradiction | auto].
    + rewrite !elem_of_cons, IH, elem_of_union, elem_of_singleton. split.
      * intros [->|[Hx Hn]]; [auto | split; [auto | tauto]].
      * intros [[->|Hx] Hn]; [auto|].
        destruct (decide (x = y)) as [->|Hne]; [auto | right; tauto].
Qed.

Lemma NoDup_filter_unique_from seen seq : NoDup (filter_unique_from seen seq).
Proof.
  revert seen. induction seq as [|y seq IH]; intros seen; simpl.
  - constructor.
  - destruct (decide (y ∈ seen)); [apply IH|].
    constructor; [|apply IH].
    rewrite elem_of_filter_unique_from, elem_of_union, elem_of_singleton.
    tauto.
Qed.

Lemma length_filter_unique_from seen seq :
  (length (filter_unique_from seen seq) ≤ length seq)%nat.
Proof.
  revert seen. induction seq as [|y seq IH]; intros seen; simpl; [lia|].
  destruct (decide (y ∈ seen)); simpl.
  - specialize (IH seen). lia.
  - specialize (IH ({[y]} ∪ seen)). lia.
Qed.

Lemma sublist_filter_unique_from seen seq :
  filter_unique_from seen seq `sublist_of` seq.
Proof.
  revert seen. induction seq as [|y seq IH]; intros seen; simpl.
  - constructor.
  - destruct (decide (y ∈ seen)).
    + apply sublist_cons. apply IH.
    + apply sublist_skip. apply IH.
Qed.

(** First-seen order: whatever is kept after [x] does not occur in the
    input before the occurrence of [x] that was kept. *)
Lemma filter_unique_from_order seen seq l1 x l2 :
  filter_unique_from seen seq = l1 ++ x :: l2 →
  ∃ c1 c2, seq = c1 ++ x :: c2 ∧ ∀ y, y ∈ l2 → y ∉ c1.
Proof.
  revert seen l1. induction seq as [|c seq IH]; intros seen l1; simpl.
  - intros H. destruct l1; discriminate H.
  - destruct (decide (c ∈ seen)) as [Hc|Hc].
    + intros H. destruct (IH _ _ H) as (c1 & c2 & -> & Hy).
      exists (c :: c1), c2. split; [reflexivity|].
      intros y Hy2 [->|Hin]%elem_of_cons; [|exact (Hy y Hy2 Hin)].
      assert (Hk : c ∈ filter_unique_from seen (c1 ++ x :: c2)).
      { rewrite H. apply elem_of_app. right. by right. }
      apply elem_of_filter_unique_from in Hk as [_ Hk]. contradiction.
    + destruct l1 as [|z l1]; simpl.
      * intros [= <- H]. exists [], seq. split; [reflexivity|].
        intros y _ Hy. inversion Hy.
      * intros [= <- H]. destruct (IH _ _ H) as (c1 & c2 & -> & Hy).
        exists (c :: c1), c2. split; [reflexivity|].
        intros y Hy2 [->|Hin]%elem_of_cons; [|exact (Hy y Hy2 Hin)].
        assert (Hk : c ∈ filter_unique_from ({[c]} ∪ seen) (c1 ++ x :: c2)).
        { rewrite H. apply elem_of_app. right. by right. }
        apply elem_of_filter_unique_from in Hk as [_ Hk].
        apply Hk. apply elem_of_union. left. by apply elem_of_singleton.
Qed.

Lemma elem_of_filter_unique seq extra x :
  x ∈ filter_unique seq extra ↔ x ∈ seq ∧ x ≠ extra ∧ x ≠ [].
Proof.
  unfold filter_unique. rewrite elem_of_filter_unique_from.
  rewrite elem_of_union, !elem_of_singleton. tauto.
Qed.

(** ** Facts about the monad and the loops *)

Lemma collect_inr {A B} (f : A → result B) l bs :
  collect f l = inr bs ↔ Forall2 (λ x b, f x = inr b) l bs.
Proof.
  revert bs. induction l as [|x l IH]; intros bs; simpl.
  - split.
    + intros [= <-]. constructor.
    + intros H. inversion H. reflexivity.
  - destruct (f x) as [e|b] eqn:Ex; simpl.
    + split; [discriminate|]. intros H. inversion H as [|? b' ? bs'' Hb Hf]; subst.
      simpl in Hb. congruence.
    + destruct (collect f l) as [e|bs'] eqn:Ec; simpl.
      * split; [discriminate|]. intros H. inversion H as [|? b' ? bs'' Hb Hf]; subst.
        apply IH in Hf. discriminate Hf.
      * split.
        -- intros [= <-]. constructor; [exact Ex | by apply IH].
        -- intros H. inversion H as [|? b' ? bs'' Hb Hf]; subst.
           apply IH in Hf. simpl in Hb. unfold ret. congruence.
Qed.

Lemma collect_inl {A B} (f : A → result B) l e :
  collect f l = inl e → ∃ x, x ∈ l ∧ f x = inl e.
Proof.
  induction l as [|x l IH]; simpl; [discriminate|].
  destruct (f x) as [e'|b] eqn:Ex; simpl.
  - intros [= ->]. exists x. split; [by left | exact Ex].
  - destruct (collect f l) as [e'|bs]; simpl; [|discriminate].
    intros [= ->]. destruct (IH eq_refl) as (y & Hy & Hf).
    exists y. split; [by right | exact Hf].
Qed.

Lemma collect_fails {A B} (f : A → result B) l x e :
  x ∈ l → f x = inl e → ∃ e', collect f l = inl e'.
Proof.
  intros Hx Hf. destruct (collect f l) as [e'|bs] eqn:Ec; [eauto|].
  apply collect_inr in Ec.
  apply list_elem_of_lookup in Hx as [i Hi].
  destruct (Forall2_lookup_l _ _ _ _ _ Ec Hi) as (b & _ & Hb).
  simpl in Hb. congruence.
Qed.

Lemma collect_all {A B} (f : A → result B) (g : A → B) l :
  (∀ x, x ∈ l → f x = inr (g x)) → collect f l = inr (g <$> l).
Proof.
  induction l as [|x l IH]; intros H; simpl; [reflexivity|].
  rewrite (H x) by (by left). simpl. rewrite IH; [reflexivity|].
  intros y Hy. apply H. by right.
Qed.

Lemma for_each_log {A S} (body : A → S → M S) l s log :
  (∀ x s log, (body x s log).1 = log) → (for_each l body s log).1 = log.
Proof.
  intros Hb. revert s log. induction l as [|x l IH]; intros s log; simpl.
  - reflexivity.
  - unfold mbind. specialize (Hb x s log).
    destruct (body x s log) as [log' [e|s']]; simpl in *; [exact Hb|].
    rewrite IH. exact Hb.
Qed.

Lemma store_results_cons m t ts rs rss :
  store_results m (t :: ts) (rs :: rss) =
  store_results (<[code t := fst <$> rs]> m) ts rss.
Proof. reflexivity. Qed.

Lemma store_results_other m ts rss c :
  c ∉ code <$> ts → store_results m ts rss !! c = m !! c.
Proof.
  revert m rss. induction ts as [|t ts IH]; intros m rss Hc; [reflexivity|].
  destruct rss as [|rs rss]; [reflexivity|].
  rewrite store_results_cons. rewrite fmap_cons, not_elem_of_cons in Hc.
  destruct Hc as [Hne Hc]. rewrite IH by exact Hc.
  by rewrite lookup_insert_ne.
Qed.

Lemma store_results_lookup m ts rss c :
  length rss = length ts → c ∈ code <$> ts →
  ∃ j t' rs, ts !! j = Some t' ∧ rss !! j = Some rs ∧ code t' = c ∧
             store_results m ts rss !! c = Some (fst <$> rs).
Proof.
  revert m rss. induction ts as [|t0 ts IH]; intros m rss Hlen Hc.
  - inversion Hc.
  - destruct rss as [|rs0 rss]; [discriminate Hlen|].
    injection Hlen as Hlen. rewrite store_results_cons.
    destruct (decide (c ∈ code <$> ts)) as [Hin|Hnin].
    + destruct (IH (<[code t0 := fst <$> rs0]> m) rss Hlen Hin)
        as (j & t' & rs & Hj & Hr & Hc' & Hl).
      exists (S j), t', rs. auto.
    + rewrite store_results_other by exact Hnin.
      rewrite fmap_cons in Hc.
      apply elem_of_cons in Hc as [->|Hc]; [|contradiction].
      exists 0%nat, t0, rs0. rewrite lookup_insert_eq. auto.
Qed.

Lemma dom_store_results m ts rss :
  length rss = length ts →
  dom (store_results m ts rss) = dom m ∪ list_to_set (code <$> ts).
Proof.
  revert m rss. induction ts as [|t ts IH]; intros m rss Hlen.
  - destruct rss; [|discriminate Hlen]. simpl. set_solver.
  - destruct rss as [|rs rss]; [discriminate Hlen|]. injection Hlen as Hlen.
    rewrite store_results_cons, IH by exact Hlen.
    rewrite dom_insert_L, fmap_cons, list_to_set_cons. set_solver.
Qed.

(** ** Facts about [splitlines] and the parameters *)

Lemma decorative_not_linebreak c : decorative c → is_linebreak c = false.
Proof.
  intros Hd. unfold is_linebreak. apply bool_decide_eq_false.
  rewrite !elem_of_cons, elem_of_nil. unfold decorative in Hd. lia.
Qed.

Lemma join_splitlines_id s :
  (∀ c, c ∈ s → is_linebreak c = false) → join [0x0A] (splitlines s) = s.
Proof.
  unfold splitlines. induction s as [|c s IH]; intros Hs; [reflexivity|].
  simpl. rewrite (Hs c) by (by left).
  assert (IH' : join [10] (splitlines_from false s) = s).
  { apply IH. intros c' Hc'. apply Hs. by right. }
  destruct (splitlines_from false s) as [|line lines] eqn:E.
  - simpl in IH'. subst s. reflexivity.
  - rewrite <- IH'. destruct lines; reflexivity.
Qed.

Lemma scan_chars_false_join s :
  scan_chars s = false → join [0x0A] (splitlines s) = s.
Proof.
  intros Hs. apply join_splitlines_id. intros c Hc.
  apply decorative_not_linebreak, in_emojis_true.
  by apply (proj1 (scan_chars_false s) Hs).
Qed.

Lemma require_inr x msg t :
  require x msg = inr t → x = Some t ∧ text_truthy t = true.
Proof.
  unfold require. destruct x as [t'|]; [|discriminate].
  destruct (text_truthy t') eqn:E; [|discriminate].
  intros [= ->]. auto.
Qed.

Lemma as_list_nonempty t : text_truthy t = true → as_list t ≠ [].
Proof. destruct t as [s|[|x l]]; simpl; intros H; congruence. Qed.

Section TranslateFacts.

Variable py_int : str → result Z.
Variable iso2model : option pytext → option pytext.
Variable improve_translation_formatting : pytext → str → str.
Variable unescape : str → str.
Variable repr_list : list pytext → str.
Variable languages : list Language.
Variable get_translation : Language → Language → option Translator.

Local Abbreviation translate_one' :=
  (translate_one improve_translation_formatting unescape get_translation).
Local Abbreviation translate_texts' :=
  (translate_texts improve_translation_formatting unescape get_translation).
Local Abbreviation translate_batch' :=
  (translate_batch improve_translation_formatting unescape get_translation).
Local Abbreviation pair_result' :=
  (pair_result improve_translation_formatting unescape get_translation).
Local Abbreviation batch_outcome' :=
  (batch_outcome improve_translation_formatting unescape get_translation).
Local Abbreviation pair_calls' :=
  (pair_calls improve_translation_formatting unescape get_translation).
Local Abbreviation reformat' := (reformat improve_translation_formatting unescape).
Local Abbreviation read_params' := (read_params py_int iso2model).
Local Abbreviation find_src_lang' := (find_src_lang languages).
Local Abbreviation targets_of' := (targets_of languages).
Local Abbreviation translate_core' :=
  (translate_core improve_translation_formatting unescape repr_list languages
     get_translation).
Local Abbreviation translate' :=
  (translate py_int iso2model improve_translation_formatting unescape
     repr_list languages get_translation).

Lemma translate_one_run src tgt tr k text log :
  translate_one' src tgt tr k text log =
  (log ++ pair_calls' src tgt tr k text, pair_result' src tgt tr k text).
Proof.
  unfold pair_calls, pair_result, translate_one.
  destruct (get_translation src tgt) as [translator|]; simpl.
  - destruct tr; simpl.
    + unfold mbind, call_hypotheses. simpl.
      destruct (hypotheses translator text (k + 1)) as [e|[|h0 rest]]; simpl;
        reflexivity.
    + by rewrite app_nil_r.
  - by rewrite app_nil_r.
Qed.

Lemma pair_result_unfold src tgt tr k text :
  pair_result' src tgt tr k text =
  match get_translation src tgt with
  | None => inl (HTTPException 400 (unavailable_message src tgt))
  | Some translator =>
      if tr then
        match hypotheses translator text (k + 1) with
        | inl e => inl e
        | inr [] => inl (IndexError (lit "list index out of range"))
        | inr (h0 :: rest) =>
            inr (Str (reformat' text h0),
                 filter_unique (reformat' text <$> rest) (reformat' text h0))
        end
      else inr (text, [])
  end.
Proof.
  unfold pair_result, translate_one.
  destruct (get_translation src tgt) as [translator|]; [|reflexivity].
  destruct tr; [|reflexivity].
  unfold mbind, call_hypotheses. simpl.
  destruct (hypotheses translator text (k + 1)) as [e|[|h0 rest]]; reflexivity.
Qed.

Lemma pair_calls_unfold src tgt tr k text :
  pair_calls' src tgt tr k text =
  match get_translation src tgt with
  | None => []
  | Some translator =>
      if tr then [{| call_target := code tgt; call_text := text;
                     call_count := k + 1 |}]
      else []
  end.
Proof.
  unfold pair_calls, translate_one.
  destruct (get_translation src tgt) as [translator|]; [|reflexivity].
  destruct tr; [|reflexivity].
  unfold mbind, call_hypotheses. simpl.
  destruct (hypotheses translator text (k + 1)) as [e|[|h0 rest]]; reflexivity.
Qed.

(** The run of the inner loop: either every step succeeds and all their
    calls are logged, or the run stops at the first step that raises. *)
Lemma translate_texts_run src t tr k texts (st : batch_state) log :
  (Forall (λ tx, ∃ r, pair_result' src tx.1 tr k tx.2 = inr r)
     ((λ text, (t, text)) <$> texts) ∧
   ∃ st', translate_texts' src t tr k texts st log =
          (log ++ concat ((λ tx, pair_calls' src tx.1 tr k tx.2) <$>
                            ((λ text, (t, text)) <$> texts)),
           inr st')) ∨
  (∃ earlier x1 later e1,
     (λ text, (t, text)) <$> texts = earlier ++ (t, x1) :: later ∧
     Forall (λ tx, ∃ r, pair_result' src tx.1 tr k tx.2 = inr r) earlier ∧
     pair_result' src t tr k x1 = inl e1 ∧
     translate_texts' src t tr k texts st log =
       (log ++ concat ((λ tx, pair_calls' src tx.1 tr k tx.2) <$> earlier)
            ++ pair_calls' src t tr k x1,
        inl e1)).
Proof.
  unfold translate_texts.
  match goal with |- context [for_each _ ?b _ _] => set (body := b) end.
  revert st log.
  induction texts as [|x texts IH]; intros st log.
  - left. split; [constructor|]. exists st. simpl. unfold mret.
    by rewrite app_nil_r.
  - assert (Hstep : for_each (x :: texts) body st log =
                    match pair_result' src t tr k x with
                    | inl e => (log ++ pair_calls' src t tr k x, inl e)
                    | inr r =>
                        for_each texts body
                          (alter (λ l, l ++ [r.1]) (code t) st.1, st.2 ++ [r.2])
                          (log ++ pair_calls' src t tr k x)
                    end).
    { cbn [for_each]. unfold body at 1. unfold mbind.
      rewrite translate_one_run.
      destruct (pair_result' src t tr k x); reflexivity. }
    rewrite Hstep. clear Hstep.
    destruct (pair_result' src t tr k x) as [e|r] eqn:Ex.
    + right. exists [], x, ((λ text, (t, text)) <$> texts), e.
      split; [reflexivity|]. split; [constructor|]. split; [exact Ex|].
      reflexivity.
    + destruct (IH (alter (λ l, l ++ [r.1]) (code t) st.1, st.2 ++ [r.2])
                  (log ++ pair_calls' src t tr k x))
        as [[Hall [st' Hrun]] | (earlier & x1 & later & e1 & Heq & Hall & He1 & Hrun)];
        rewrite Hrun.
      * left. split; [rewrite fmap_cons; constructor; [by exists r | exact Hall]|].
        exists st'. rewrite !fmap_cons. cbn [concat fst snd].
        by rewrite <- app_assoc.
      * right. exists ((t, x) :: earlier), x1, later, e1.
        split; [by rewrite fmap_cons, Heq|].
        split; [constructor; [by exists r | exact Hall]|].
        split; [exact He1|].
        rewrite fmap_cons. cbn [concat fst snd].
        by rewrite <- !app_assoc.
Qed.

Lemma batch_pairs_cons t ts texts :
  batch_pairs (t :: ts) texts =
  ((λ text, (t, text)) <$> texts) ++ batch_pairs ts texts.
Proof. reflexivity. Qed.

Lemma elem_of_batch_pairs targets texts t text :
  t ∈ targets → text ∈ texts → (t, text) ∈ batch_pairs targets texts.
Proof.
  intros Ht Htext. induction Ht as [t ts | t t0 ts Ht IH];
    rewrite batch_pairs_cons, elem_of_app.
  - left. apply list_elem_of_fmap. by exists text.
  - right. exact IH.
Qed.

(** The run of the outer loop, over the pairs in the order visited. *)
Lemma translate_batch_run src targets tr k texts (st : batch_state) log :
  (Forall (λ tx, ∃ r, pair_result' src tx.1 tr k tx.2 = inr r)
     (batch_pairs targets texts) ∧
   ∃ st', for_each targets
            (λ tgt_lang (st : batch_state),
               translate_texts' src tgt_lang tr k texts
                 (<[code tgt_lang := []]> st.1, st.2)) st log =
          (log ++ concat ((λ tx, pair_calls' src tx.1 tr k tx.2) <$>
                            batch_pairs targets texts),
           inr st')) ∨
  (∃ earlier t1 x1 later e1,
     batch_pairs targets texts = earlier ++ (t1, x1) :: later ∧
     Forall (λ tx, ∃ r, pair_result' src tx.1 tr k tx.2 = inr r) earlier ∧
     pair_result' src t1 tr k x1 = inl e1 ∧
     for_each targets
       (λ tgt_lang (st : batch_state),
          translate_texts' src tgt_lang tr k texts
            (<[code tgt_lang := []]> st.1, st.2)) st log =
       (log ++ concat ((λ tx, pair_calls' src tx.1 tr k tx.2) <$> earlier)
            ++ pair_calls' src t1 tr k x1,
        inl e1)).
Proof.
  revert st log. induction targets as [|t ts IH]; intros st log.
  - left. split; [constructor|]. exists st. simpl. unfold mret.
    by rewrite app_nil_r.
  - cbn [for_each]. unfold mbind. rewrite batch_pairs_cons.
    destruct (translate_texts_run src t tr k texts
                (<[code t := []]> st.1, st.2) log)
      as [[Hall [st1 Hrun]] | (earlier & x1 & later & e1 & Heq & Hall & He1 & Hrun)];
      rewrite Hrun.
    + destruct (IH st1 (log ++ concat ((λ tx, pair_calls' src tx.1 tr k tx.2) <$>
                                         ((λ text, (t, text)) <$> texts))))
        as [[Hall' [st' Hrun']] |
            (earlier & t1 & x1 & later & e1 & Heq & Hall' & He1 & Hrun')];
        rewrite Hrun'.
      * left. split; [apply Forall_app; split; assumption|].
        exists st'. by rewrite fmap_app, concat_app, <- app_assoc.
      * right. exists (((λ text, (t, text)) <$> texts) ++ earlier), t1, x1, later, e1.
        split; [by rewrite Heq, <- app_assoc|].
        split; [apply Forall_app; split; assumption|].
        split; [exact He1|].
        by rewrite fmap_app, concat_app, <- !app_assoc.
    + right. exists earlier, t, x1, (later ++ batch_pairs ts texts), e1.
      split; [by rewrite Heq, <- app_assoc|].
      split; [exact Hall|]. split; [exact He1|]. reflexivity.
Qed.

Lemma translate_batch_first_failure src targets tr k texts log :
  (Forall (λ tx, ∃ r, pair_result' src tx.1 tr k tx.2 = inr r)
     (batch_pairs targets texts) ∧
   ∃ st', translate_batch' src targets tr k texts log =
          (log ++ concat ((λ tx, pair_calls' src tx.1 tr k tx.2) <$>
                            batch_pairs targets texts),
           inr st')) ∨
  (∃ earlier t1 x1 later e1,
     batch_pairs targets texts = earlier ++ (t1, x1) :: later ∧
     Forall (λ tx, ∃ r, pair_result' src tx.1 tr k tx.2 = inr r) earlier ∧
     pair_result' src t1 tr k x1 = inl e1 ∧
     translate_batch' src targets tr k texts log =
       (log ++ concat ((λ tx, pair_calls' src tx.1 tr k tx.2) <$> earlier)
            ++ pair_calls' src t1 tr k x1,
        inl e1)).
Proof. unfold translate_batch. apply translate_batch_run. Qed.

Lemma translate_texts_result src tgt tr k texts (st : batch_state) log :
  (translate_texts' src tgt tr k texts st log).2 =
  match collect (pair_result' src tgt tr k) texts with
  | inl e => inl e
  | inr rs =>
      inr (alter (λ l, l ++ (fst <$> rs)) (code tgt) st.1, st.2 ++ (snd <$> rs))
  end.
Proof.
  unfold translate_texts. revert st log.
  induction texts as [|text texts IH]; intros [br ba] log; simpl.
  - unfold mret. simpl. rewrite app_nil_r. f_equal. f_equal.
    apply map_eq. intros i.
    destruct (decide (code tgt = i)) as [->|Hne];
      [rewrite lookup_alter_eq | by rewrite lookup_alter_ne].
    destruct (br !! i); simpl; [by rewrite app_nil_r | reflexivity].
  - unfold mbind at 1. unfold mbind at 1. rewrite translate_one_run.
    destruct (pair_result' src tgt tr k text) as [e|[v alts]]; simpl;
      [reflexivity|].
    unfold mret at 1. rewrite IH. simpl.
    destruct (collect (pair_result' src tgt tr k) texts) as [e|rs]; simpl;
      [reflexivity|].
    f_equal. f_equal.
    + apply map_eq. intros i.
      destruct (decide (code tgt = i)) as [->|Hne];
        [rewrite !lookup_alter_eq | by rewrite !lookup_alter_ne].
      destruct (br !! i); simpl; [|reflexivity].
      by rewrite <- app_assoc.
    + by rewrite <- app_assoc.
Qed.

Lemma translate_texts_log_false src tgt k texts (st : batch_state) log :
  (translate_texts' src tgt false k texts st log).1 = log.
Proof.
  unfold translate_texts. apply for_each_log. intros text s l.
  unfold mbind. rewrite translate_one_run, pair_calls_unfold.
  destruct (get_translation src tgt); simpl; rewrite app_nil_r;
    destruct (pair_result' src tgt false k text); reflexivity.
Qed.

Lemma translate_batch_log_false src targets k texts log :
  (translate_batch' src targets false k texts log).1 = log.
Proof.
  unfold translate_batch. apply for_each_log. intros tgt s l.
  apply translate_texts_log_false.
Qed.

Lemma translate_batch_result_from src targets tr k texts (st : batch_state) log :
  (for_each targets
     (λ tgt_lang (st : batch_state),
        translate_texts' src tgt_lang tr k texts
          (<[code tgt_lang := []]> st.1, st.2)) st log).2 =
  match batch_outcome' src targets tr k texts with
  | inl e => inl e
  | inr rss =>
      inr (store_results st.1 targets rss, st.2 ++ all_alternatives rss)
  end.
Proof.
  unfold batch_outcome. revert st log.
  induction targets as [|t ts IH]; intros [br ba] log; simpl.
  - unfold mret. simpl. by rewrite app_nil_r.
  - unfold mbind at 1.
    pose proof (translate_texts_result src t tr k texts
                  (<[code t := []]> br, ba) log) as Hr.
    destruct (translate_texts' src t tr k texts (<[code t := []]> br, ba) log)
      as [log' r]. simpl in Hr. subst r.
    destruct (collect (pair_result' src t tr k) texts) as [e|rs]; simpl;
      [reflexivity|].
    rewrite IH. simpl.
    destruct (collect _ ts) as [e|rss]; simpl; [reflexivity|].
    unfold all_alternatives.
    rewrite store_results_cons, alter_insert_eq, app_nil_l, fmap_cons.
    simpl. by rewrite <- app_assoc.
Qed.

Lemma translate_batch_result src targets tr k texts log :
  (translate_batch' src targets tr k texts log).2 =
  match batch_outcome' src targets tr k texts with
  | inl e => inl e
  | inr rss => inr (store_results ∅ targets rss, all_alternatives rss)
  end.
Proof. unfold translate_batch. by rewrite translate_batch_result_from. Qed.

(** What the handler answers once the parameters are read. *)
Lemma translate_core_result p log :
  (translate_core' p log).2 =
  match find_src_lang' p with
  | None => inl (HTTPException 400
                   (py_str repr_list (source_lang p) ++ lit "s is not supported"))
  | Some src =>
      match targets_of' p with
      | [] =>
          inl (HTTPException 500
                 (lit "Cannot translate text: " ++
                  exn_str (HTTPException 400
                             (py_str repr_list (target_lang p) ++
                              lit "s is not supported")) ++ lit "s"))
      | _ =>
          match batch_outcome' src (targets_of' p) (translatable p)
                  (num_alternatives p) (src_texts p) with
          | inl e =>
              inl (HTTPException 500
                     (lit "Cannot translate text: " ++ exn_str e ++ lit "s"))
          | inr rss =>
              inr {| translatedText := store_results ∅ (targets_of' p) rss |}
          end
      end
  end.
Proof.
  unfold translate_core. destruct (find_src_lang' p) as [src|]; [|reflexivity].
  unfold try_except. destruct (targets_of' p) as [|t ts] eqn:Et; [reflexivity|].
  unfold mbind.
  pose proof (translate_batch_result src (t :: ts) (translatable p)
                (num_alternatives p) (src_texts p) log) as Hr.
  destruct (translate_batch' src (t :: ts) (translatable p)
              (num_alternatives p) (src_texts p) log) as [log' r].
  simpl in Hr. subst r.
  destruct (batch_outcome' src (t :: ts) (translatable p) (num_alternatives p)
              (src_texts p)) as [e|rss]; reflexivity.
Qed.

Lemma translate_core_log_false p log :
  translatable p = false → (translate_core' p log).1 = log.
Proof.
  intros Hf. unfold translate_core.
  destruct (find_src_lang' p) as [src|]; [|reflexivity].
  unfold try_except. destruct (targets_of' p) as [|t ts]; [reflexivity|].
  unfold mbind. rewrite Hf.
  pose proof (translate_batch_log_false src (t :: ts) (num_alternatives p)
                (src_texts p) log) as Hl.
  destruct (translate_batch' src (t :: ts) false (num_alternatives p)
              (src_texts p) log) as [log' [e|st]]; simpl in *; exact Hl.
Qed.

Lemma translate_run req p log :
  read_params' req = inr p → translate' req log = translate_core' p log.
Proof. intros Hp. unfold translate, mbind, lift. by rewrite Hp. Qed.

Lemma translate_read_error req e log :
  read_params' req = inl e → translate' req log = (log, inl e).
Proof. intros Hp. unfold translate, mbind, lift. by rewrite Hp. Qed.

Lemma check_params_inr r p :
  check_params py_int r = inr p →
  text_truthy (q p) = true ∧ text_truthy (source_lang p) = true ∧
  text_truthy (target_lang p) = true ∧ 0 ≤ num_alternatives p ∧
  is_json p = r_is_json r ∧ r_q r = Some (q p).
Proof.
  unfold check_params.
  destruct (require (r_q r) _) as [e|q0] eqn:Eq; [discriminate|].
  destruct (require (r_source_lang r) _) as [e|s0] eqn:Es; [discriminate|].
  destruct (require (r_target_lang r) _) as [e|t0] eqn:Et; [discriminate|].
  apply require_inr in Eq as [Eq Hq], Es as [Es Hs], Et as [Et Ht].
  cbn [rbind].
  destruct (py_int_raw py_int (r_num_alternatives r)) as [[]|n];
    cbn [rbind abort raise ret]; try discriminate.
  intros [= <-]. cbn. repeat split; try assumption. lia.
Qed.

Lemma read_params_inr req p :
  read_params' req = inr p →
  text_truthy (q p) = true ∧ 0 ≤ num_alternatives p ∧
  (is_json p = false → ∃ s, q p = Str s).
Proof.
  unfold read_params.
  destruct (read_request py_int iso2model req) as [e|r] eqn:Er; [discriminate|].
  cbn [rbind]. intros Hc. apply check_params_inr in Hc
    as (Hq & _ & _ & Hk & Hj & Hrq).
  repeat split; try assumption.
  intros Hf. rewrite Hj in Hf. unfold read_request in Er.
  destruct req as [body|values].
  - destruct (get_json_dict body) as [e|d]; [discriminate|]. cbn [rbind] in Er.
    destruct (py_int_json py_int _) as [e|n]; [discriminate|].
    cbn [rbind ret] in Er. injection Er as <-. discriminate Hf.
  - cbn [ret] in Er. injection Er as <-. cbn in Hrq.
    destruct (f_q values) as [s|]; [|discriminate]. injection Hrq as <-. eauto.
Qed.

Lemma src_texts_nonempty req p : read_params' req = inr p → src_texts p ≠ [].
Proof.
  intros Hp. destruct (read_params_inr req p Hp) as (Hq & _ & Hform).
  unfold src_texts, normalized_q. destruct (is_json p).
  - by apply as_list_nonempty.
  - destruct (Hform eq_refl) as [s ->]. discriminate.
Qed.

(** A request all of whose segments are decorative is left as it is by the
    line normalisation of form requests. *)
Lemma src_texts_raw p :
  detect_translatable (Lst (as_list (q p))) = false →
  src_texts p = as_list (q p).
Proof.
  intros Hd. unfold src_texts, normalized_q. destruct (is_json p); [reflexivity|].
  destruct (q p) as [s|l]; [|reflexivity].
  simpl in Hd. destruct (scan_chars s) eqn:Es; [discriminate|].
  by rewrite scan_chars_false_join.
Qed.

(** ** The handler's properties *)

Lemma batch_outcome_inr src targets tr k texts rss :
  batch_outcome' src targets tr k texts = inr rss →
  Forall2 (λ t rs, Forall2 (λ text r, pair_result' src t tr k text = inr r)
                     texts rs) targets rss.
Proof.
  unfold batch_outcome. intros H%collect_inr.
  eapply Forall2_impl; [exact H|]. intros t rs Hc. by apply collect_inr.
Qed.

Lemma length_all_alternatives (rss : list (list (pytext * list str))) n :
  Forall (λ rs, length rs = n) rss →
  length (all_alternatives rss) = (length rss * n)%nat.
Proof.
  unfold all_alternatives. induction 1 as [|rs rss Hrs _ IH]; [reflexivity|].
  rewrite fmap_cons. simpl. rewrite length_app, length_fmap, IH. lia.
Qed.

Lemma elem_of_all_alternatives (rss : list (list (pytext * list str))) alts :
  alts ∈ all_alternatives rss → ∃ rs r, rs ∈ rss ∧ r ∈ rs ∧ alts = r.2.
Proof.
  unfold all_alternatives. induction rss as [|rs rss IH]; simpl.
  - intros H. inversion H.
  - intros [H|H]%elem_of_app.
    + apply list_elem_of_fmap in H as (r & -> & Hr).
      exists rs, r. split; [by left | auto].
    + destruct (IH H) as (rs' & r & Hrs & Hr & ->).
      exists rs', r. split; [by right | auto].
Qed.

(** C4. When [translate] succeeds, the keys of the answer are exactly the
    codes of the validated targets, and under each target's code stands a
    sequence as long as the list of segments whose [i]-th element is what
    the [i]-th segment's step returned (for a loaded target of that
    code). *)
Theorem batch_result_shape req log log' resp :
  translate' req log = (log', inr resp) →
  ∃ p src,
    read_params' req = inr p ∧ find_src_lang' p = Some src ∧
    dom (translatedText resp) = list_to_set (code <$> targets_of' p) ∧
    ∀ t, t ∈ targets_of' p →
      ∃ vs t',
        translatedText resp !! code t = Some vs ∧
        length vs = length (src_texts p) ∧
        t' ∈ targets_of' p ∧ code t' = code t ∧
        ∀ i text, src_texts p !! i = Some text →
          ∃ r, pair_result' src t' (translatable p) (num_alternatives p) text
                 = inr r ∧
               vs !! i = Some r.1.
Proof.
  intros Ht. destruct (read_params' req) as [e|p] eqn:Hp.
  { rewrite (translate_read_error _ _ _ Hp) in Ht. discriminate Ht. }
  rewrite (translate_run _ _ _ Hp) in Ht.
  pose proof (translate_core_result p log) as Hr. rewrite Ht in Hr.
  cbn [snd] in Hr.
  destruct (find_src_lang' p) as [src|] eqn:Hs; [|discriminate Hr].
  exists p, src. split; [reflexivity|]. split; [exact Hs|].
  remember (targets_of' p) as targets eqn:Et.
  destruct targets as [|t0 ts]; [discriminate Hr|].
  destruct (batch_outcome' src (t0 :: ts) (translatable p) (num_alternatives p)
              (src_texts p)) as [e|rss] eqn:Eb; [discriminate Hr|].
  injection Hr as ->. cbn [translatedText].
  apply batch_outcome_inr in Eb.
  pose proof (Forall2_length _ _ _ Eb) as Hlen. symmetry in Hlen.
  split.
  - rewrite dom_store_results by exact Hlen. rewrite dom_empty_L. set_solver.
  - intros t Hin.
    destruct (store_results_lookup ∅ (t0 :: ts) rss (code t) Hlen)
      as (j & t' & rs & Hj & Hrs & Hc & Hl).
    { apply list_elem_of_fmap. eauto. }
    pose proof (Forall2_lookup_lr _ _ _ _ _ _ Eb Hj Hrs) as Hf.
    exists (fst <$> rs), t'. split; [exact Hl|].
    split; [rewrite length_fmap; symmetry; exact (Forall2_length _ _ _ Hf)|].
    split; [apply list_elem_of_lookup; eauto|]. split; [exact Hc|].
    intros i text Hi.
    destruct (Forall2_lookup_l _ _ _ _ _ Hf Hi) as (r & Hr & Hp').
    exists r. split; [exact Hp'|]. by rewrite list_lookup_fmap, Hr.
Qed.

(** C1 (as the code has it).  A request that passes the parameter checks
    and whose segments are all decorative makes no engine call, whatever
    the outcome; its segments reach the loop as they were sent; and when
    the language the source was fixed to is loaded, some target is
    supported, and a translator from that language exists to every
    validated target, the answer holds under every target's code the
    segments verbatim. *)
Theorem passthrough_spec req p log :
  read_params' req = inr p →
  detect_translatable (Lst (as_list (q p))) = false →
  (translate' req log).1 = log ∧
  src_texts p = as_list (q p) ∧
  ∀ src,
    find_src_lang' p = Some src →
    targets_of' p ≠ [] →
    (∀ t, t ∈ targets_of' p → is_Some (get_translation src t)) →
    ∃ resp,
      translate' req log = (log, inr resp) ∧
      dom (translatedText resp) = list_to_set (code <$> targets_of' p) ∧
      ∀ t, t ∈ targets_of' p →
        translatedText resp !! code t = Some (as_list (q p)).
Proof.
  intros Hp Hd. pose proof (src_texts_raw p Hd) as Hraw.
  assert (Hf : translatable p = false).
  { unfold translatable. by rewrite Hraw. }
  rewrite (translate_run _ _ _ Hp).
  split; [by apply translate_core_log_false|]. split; [exact Hraw|].
  intros src Hs Hne Htr.
  pose proof (translate_core_result p log) as Hr.
  pose proof (translate_core_log_false p log Hf) as Hl.
  rewrite Hs in Hr. remember (targets_of' p) as targets eqn:Et.
  destruct targets as [|t0 ts]; [contradiction|].
  assert (Hb : batch_outcome' src (t0 :: ts) (translatable p)
                 (num_alternatives p) (src_texts p) =
               inr ((λ _ : Language, (λ text, (text, [])) <$> src_texts p)
                      <$> (t0 :: ts))).
  { unfold batch_outcome. apply collect_all. intros t Ht.
    apply collect_all. intros text _. rewrite pair_result_unfold, Hf.
    destruct (Htr t Ht) as [tr ->]. reflexivity. }
  remember ((λ _ : Language, (λ text, (text, [])) <$> src_texts p)
              <$> (t0 :: ts)) as rss eqn:Erss.
  assert (Hlen : length rss = length (t0 :: ts)).
  { rewrite Erss. apply length_fmap. }
  rewrite Hb in Hr.
  exists {| translatedText := store_results ∅ (t0 :: ts) rss |}. split.
  { destruct (translate_core' p log) as [l r]. simpl in Hr, Hl. subst l r.
    reflexivity. }
  cbn [translatedText]. split.
  - rewrite dom_store_results by exact Hlen.
    rewrite dom_empty_L. set_solver.
  - intros t Ht.
    destruct (store_results_lookup ∅ (t0 :: ts) rss (code t) Hlen)
      as (j & t' & rs & Hj & Hrs & Hc & Hlk).
    { apply list_elem_of_fmap. eauto. }
    rewrite Hlk. rewrite Erss, list_lookup_fmap, Hj in Hrs.
    injection Hrs as <-.
    rewrite <- list_fmap_compose, <- Hraw. f_equal.
    rewrite <- (list_fmap_id (src_texts p)) at 2. reflexivity.
Qed.

Lemma find_src_lang_Some p src :
  find_src_lang' p = Some src →
  src ∈ languages ∧ text_eqb (language (detected_src_lang p)) (code src) = true.
Proof.
  unfold find_src_lang. intros H%head_Some_elem_of.
  apply list_elem_of_filter in H as [H1 H2]. auto.
Qed.

Lemma find_src_lang_None p :
  find_src_lang' p = None →
  ∀ l, l ∈ languages →
       text_eqb (language (detected_src_lang p)) (code l) = false.
Proof.
  unfold find_src_lang. intros H%head_None l Hl.
  destruct (text_eqb _ (code l)) eqn:E; [|reflexivity].
  assert (Hin : l ∈ filter (λ l, text_eqb (language (detected_src_lang p))
                                   (code l) = true) languages).
  { apply list_elem_of_filter. auto. }
  rewrite H in Hin. inversion Hin.
Qed.

(** The batch fails as soon as one step of it does. *)
Lemma batch_outcome_fails src targets tr k texts t text e :
  t ∈ targets → text ∈ texts → pair_result' src t tr k text = inl e →
  ∃ e' t' text',
    t' ∈ targets ∧ text' ∈ texts ∧ pair_result' src t' tr k text' = inl e' ∧
    batch_outcome' src targets tr k texts = inl e'.
Proof.
  intros Ht Htext He. unfold batch_outcome.
  destruct (collect_fails (pair_result' src t tr k) texts text e Htext He)
    as [e1 He1].
  destruct (collect_fails
              (λ t, collect (pair_result' src t tr k) texts) targets t e1 Ht He1)
    as [e' He'].
  destruct (collect_inl _ _ _ He') as (t' & Ht' & Hc).
  destruct (collect_inl _ _ _ Hc) as (text' & Htext' & Hp).
  exists e', t', text'. auto.
Qed.

(** C10. For a request whose segments are all non-translatable the detected
    source is English with confidence 0, whatever source was asked for;
    the source language is looked up under that code, and the request
    fails when English is not loaded or when some validated target has no
    translator from it, although no engine call is made. *)
Theorem passthrough_source_is_english req p log :
  read_params' req = inr p →
  translatable p = false →
  detected_src_lang p = {| confidence := 0; language := Str (lit "en") |} ∧
  (∀ src, find_src_lang' p = Some src → src ∈ languages ∧ code src = lit "en") ∧
  (find_src_lang' p = None →
     (∀ l, l ∈ languages → code l ≠ lit "en") ∧
     ∃ d, translate' req log = (log, inl (HTTPException 400 d))) ∧
  (∀ src t,
     find_src_lang' p = Some src → t ∈ targets_of' p →
     get_translation src t = None →
     ∃ d, translate' req log = (log, inl (HTTPException 500 d))).
Proof.
  intros Hp Hf.
  assert (Hd : detected_src_lang p =
               {| confidence := 0; language := Str (lit "en") |}).
  { unfold detected_src_lang. by rewrite Hf. }
  rewrite (translate_run _ _ _ Hp).
  pose proof (translate_core_result p log) as Hr.
  pose proof (translate_core_log_false p log Hf) as Hl.
  split; [exact Hd|]. split; [|split].
  - intros src [Hin He]%find_src_lang_Some. split; [exact Hin|].
    rewrite Hd in He. simpl in He. by apply bool_decide_eq_true in He.
  - intros Hn. split.
    + intros l Hin Hc. pose proof (find_src_lang_None p Hn l Hin) as He.
      rewrite Hd in He. simpl in He. apply bool_decide_eq_false in He. auto.
    + rewrite Hn in Hr. eexists.
      destruct (translate_core' p log) as [l r]. simpl in Hr, Hl. subst l r.
      reflexivity.
  - intros src t Hs Ht Hg. rewrite Hs in Hr.
    destruct (src_texts p) as [|text texts] eqn:Etexts.
    { exfalso. exact (src_texts_nonempty req p Hp Etexts). }
    destruct (batch_outcome_fails src (targets_of' p) (translatable p)
                (num_alternatives p) (text :: texts) t text
                (HTTPException 400 (unavailable_message src t)))
      as (e' & _ & _ & _ & _ & _ & Hb);
      [exact Ht | by left | by rewrite pair_result_unfold, Hg |].
    rewrite Hb in Hr.
    destruct (targets_of' p) as [|t0 ts]; [inversion Ht|].
    eexists. destruct (translate_core' p log) as [l r]. simpl in Hr, Hl.
    subst l r. reflexivity.
Qed.

(** C5 (as the code has it).  If any single (segment, target) step raises,
    the request is aborted at the first step that does, in the order the
    loops visit the pairs: the steps before it succeeded and their results
    are dropped, no later step is run (the log ends with the calls of the
    failing step), and instead of an answer the request gets status 500
    with a description made of ["Cannot translate text: "] and [str(e)] of
    that first exception (to which line 457 appends a letter [s]). *)
Theorem engine_failure_aborts_batch req p src log t text e :
  read_params' req = inr p →
  find_src_lang' p = Some src →
  t ∈ targets_of' p → text ∈ src_texts p →
  pair_result' src t (translatable p) (num_alternatives p) text = inl e →
  ∃ earlier t1 x1 later e1,
    batch_pairs (targets_of' p) (src_texts p) = earlier ++ (t1, x1) :: later ∧
    Forall (λ tx, ∃ r, pair_result' src tx.1 (translatable p)
                         (num_alternatives p) tx.2 = inr r) earlier ∧
    pair_result' src t1 (translatable p) (num_alternatives p) x1 = inl e1 ∧
    translate' req log =
      (log ++ concat ((λ tx, pair_calls' src tx.1 (translatable p)
                               (num_alternatives p) tx.2) <$> earlier)
           ++ pair_calls' src t1 (translatable p) (num_alternatives p) x1,
       inl (HTTPException 500
              (lit "Cannot translate text: " ++ exn_str e1 ++ lit "s"))).
Proof.
  intros Hp Hs Ht Htext He. rewrite (translate_run _ _ _ Hp).
  unfold translate_core. rewrite Hs. unfold try_except.
  assert (Hne : targets_of' p ≠ []) by (intros Hn; rewrite Hn in Ht; inversion Ht).
  destruct (translate_batch_first_failure src (targets_of' p) (translatable p)
              (num_alternatives p) (src_texts p) log)
    as [[Hall _] | (earlier & t1 & x1 & later & e1 & Heq & Hall & He1 & Hrun)].
  - exfalso. rewrite Forall_forall in Hall.
    destruct (Hall (t, text) (elem_of_batch_pairs _ _ _ _ Ht Htext)) as [r Hr].
    simpl in Hr. congruence.
  - exists earlier, t1, x1, later, e1.
    split; [exact Heq|]. split; [exact Hall|]. split; [exact He1|].
    destruct (targets_of' p) as [|t0 ts]; [contradiction|].
    unfold mbind. rewrite Hrun. reflexivity.
Qed.

(** C3. With the engine keeping its contract (at most [count] candidates),
    a batch over translatable input that completes has one
    alternatives list per (target, segment) pair, and each of them is
    [filter_unique] of the reformatted candidates after the primary: at
    most [k] long, without duplicates, without the primary translation and
    without the empty string, a subsequence of the candidates in which
    whatever follows an element was not seen before it. *)
Theorem alternatives_spec src targets k texts log log' br ba :
  (∀ t tr text hs,
     get_translation src t = Some tr →
     hypotheses tr text (k + 1) = inr hs → Z.of_nat (length hs) ≤ k + 1) →
  translate_batch' src targets true k texts log = (log', inr (br, ba)) →
  length ba = (length targets * length texts)%nat ∧
  ∀ alts, alts ∈ ba →
    ∃ t text tr h0 rest,
      t ∈ targets ∧ text ∈ texts ∧
      get_translation src t = Some tr ∧
      hypotheses tr text (k + 1) = inr (h0 :: rest) ∧
      alts = filter_unique (reformat' text <$> rest) (reformat' text h0) ∧
      Z.of_nat (length alts) ≤ k ∧
      NoDup alts ∧
      (reformat' text h0 ∉ alts) ∧
      ([] ∉ alts) ∧
      (alts `sublist_of` (reformat' text <$> rest)) ∧
      ∀ l1 x l2, alts = l1 ++ x :: l2 →
        ∃ c1 c2, reformat' text <$> rest = c1 ++ x :: c2 ∧
                 ∀ y, y ∈ l2 → y ∉ c1.
Proof.
  clear py_int iso2model repr_list languages.
  intros Hcontract Hrun.
  pose proof (translate_batch_result src targets true k texts log) as Hr.
  rewrite Hrun in Hr. cbn [snd] in Hr.
  destruct (batch_outcome' src targets true k texts) as [e|rss] eqn:Eb;
    [discriminate Hr|].
  injection Hr as -> ->. apply batch_outcome_inr in Eb. split.
  - rewrite (length_all_alternatives rss (length texts)).
    + by rewrite (Forall2_length _ _ _ Eb).
    + apply Forall_forall. intros rs Hrs.
      apply list_elem_of_lookup in Hrs as [j Hj].
      destruct (Forall2_lookup_r _ _ _ _ _ Eb Hj) as (t & _ & Hf).
      symmetry. exact (Forall2_length _ _ _ Hf).
  - intros alts (rs & r & Hrs & Hr & ->)%elem_of_all_alternatives.
    apply list_elem_of_lookup in Hrs as [j Hj].
    destruct (Forall2_lookup_r _ _ _ _ _ Eb Hj) as (t & Ht & Hf).
    apply list_elem_of_lookup in Hr as [i Hi].
    destruct (Forall2_lookup_r _ _ _ _ _ Hf Hi) as (text & Htext & Hp).
    simpl in Hp. rewrite pair_result_unfold in Hp.
    destruct (get_translation src t) as [tr|] eqn:Hg; [|discriminate Hp].
    destruct (hypotheses tr text (k + 1)) as [e|[|h0 rest]] eqn:Hh;
      try discriminate Hp.
    injection Hp as <-. cbn [snd].
    exists t, text, tr, h0, rest.
    split; [apply list_elem_of_lookup; eauto|].
    split; [apply list_elem_of_lookup; eauto|].
    split; [exact Hg|]. split; [exact Hh|]. split; [reflexivity|].
    pose proof (Hcontract t tr text (h0 :: rest) Hg Hh) as Hlen.
    simpl in Hlen.
    pose proof (length_filter_unique_from
                  {[reformat' text h0; []]} (reformat' text <$> rest)) as Hle.
    rewrite length_fmap in Hle.
    split; [unfold filter_unique; lia|].
    split; [apply NoDup_filter_unique_from|].
    split; [rewrite elem_of_filter_unique; tauto|].
    split; [rewrite elem_of_filter_unique; tauto|].
    split; [apply sublist_filter_unique_from|].
    intros l1 x l2 Halts. by eapply filter_unique_from_order.
Qed.

(** C6 (what the code does).  When the first validated target has no
    translator from the source language, the [abort(400, ...)] of line 440
    is raised inside the [try] block and caught by [except Exception]: the
    request ends with status 500, the 400 message wrapped in the
    description. *)
Theorem unavailable_pair_surfaces_as_500 req p src t ts log :
  read_params' req = inr p →
  find_src_lang' p = Some src →
  targets_of' p = t :: ts →
  get_translation src t = None →
  (translate' req log).2 =
    inl (HTTPException 500
           (lit "Cannot translate text: " ++
            exn_str (HTTPException 400 (unavailable_message src t)) ++
            lit "s")).
Proof.
  intros Hp Hs Ht Hg. rewrite (translate_run _ _ _ Hp).
  rewrite translate_core_result, Hs, Ht.
  destruct (src_texts p) as [|text texts] eqn:Etexts.
  { exfalso. exact (src_texts_nonempty req p Hp Etexts). }
  unfold batch_outcome. simpl. rewrite pair_result_unfold, Hg. reflexivity.
Qed.

(** C7 (what the code does).  A JSON body whose [alternatives] is a string
    that [int] rejects makes line 386 raise outside any [try]: the
    [ValueError] leaves the handler as it is, whatever the other
    parameters.  A form request with the same string and the three
    required parameters present is answered with status 400. *)
Theorem alternatives_not_a_number :
  (∀ d s m log,
     j_alternatives d = Some (JStr s) → py_int s = inl (ValueError m) →
     translate' (JsonRequest (Some d)) log = (log, inl (ValueError m))) ∧
  (∀ values s m log,
     opt_truthy text_truthy (Str <$> f_q values) = true →
     opt_truthy text_truthy (iso2model (Str <$> f_source values)) = true →
     opt_truthy text_truthy (iso2model (Str <$> f_target values)) = true →
     f_alternatives values = Some s → py_int s = inl (ValueError m) →
     translate' (FormRequest values) log =
       (log, inl (HTTPException 400
                    (lit "Invalid request: `alternatives` parameter is not a number")))).
Proof.
  split.
  - intros d s m log Ha Hi. apply translate_read_error.
    unfold read_params, read_request. cbn [get_json_dict rbind ret].
    rewrite Ha. cbn [default from_option id py_int_json]. rewrite Hi.
    reflexivity.
  - intros values s m log Hq Hsrc Htgt Ha Hi. apply translate_read_error.
    unfold read_params, read_request. cbn [rbind ret]. unfold check_params.
    cbn [r_q r_source_lang r_target_lang r_num_alternatives r_is_json].
    unfold require.
    destruct (Str <$> f_q values) as [q0|]; [|discriminate Hq].
    cbn [opt_truthy] in Hq. rewrite Hq. cbn [rbind ret].
    destruct (iso2model (Str <$> f_source values)) as [s0|]; [|discriminate Hsrc].
    cbn [opt_truthy] in Hsrc. rewrite Hsrc. cbn [rbind ret].
    destruct (iso2model (Str <$> f_target values)) as [t0|]; [|discriminate Htgt].
    cbn [opt_truthy] in Htgt. rewrite Htgt. cbn [rbind ret].
    rewrite Ha. cbn [from_option py_int_raw]. rewrite Hi. reflexivity.
Qed.
End TranslateFacts.

(** ** The properties at the examples *)

Lemma batch_result_shape_witness :
  example_translate hola_translator
    (json_request hello "en" "es" (Some (JInt 2))) [] =
    ([hello_call 3], inr (single_answer "es" [Str (lit "Hola")])) ∧
  ∃ p src,
    read_params dec_int same_code (json_request hello "en" "es" (Some (JInt 2)))
      = inr p ∧
    find_src_lang example_languages p = Some src ∧
    dom (translatedText (single_answer "es" [Str (lit "Hola")])) =
      list_to_set (code <$> targets_of example_languages p).
Proof.
  assert (H : example_translate hola_translator
                (json_request hello "en" "es" (Some (JInt 2))) [] =
              ([hello_call 3], inr (single_answer "es" [Str (lit "Hola")])))
    by (vm_compute; reflexivity).
  split; [exact H|].
  destruct (batch_result_shape dec_int same_code plain_formatting no_escapes
              short_repr example_languages (pair_en_es hola_translator)
              _ _ _ _ H) as (p & src & Hp & Hs & Hd & _).
  exists p, src. auto.
Defined.

Lemma passthrough_spec_witness :
  read_params dec_int same_code (json_request grin "en" "es" None) =
    inr (example_params grin "es" 0) ∧
  detect_translatable (Lst (as_list (q (example_params grin "es" 0)))) = false ∧
  ∃ resp,
    example_translate hola_translator (json_request grin "en" "es" None) [] =
      ([], inr resp) ∧
    translatedText resp !! code es = Some [Str [0x1F600]].
Proof.
  assert (Hp : read_params dec_int same_code (json_request grin "en" "es" None) =
               inr (example_params grin "es" 0)) by (vm_compute; reflexivity).
  assert (Hd : detect_translatable
                 (Lst (as_list (q (example_params grin "es" 0)))) = false)
    by (vm_compute; reflexivity).
  split; [exact Hp|]. split; [exact Hd|].
  destruct (passthrough_spec dec_int same_code plain_formatting no_escapes
              short_repr example_languages (pair_en_es hola_translator)
              _ _ [] Hp Hd) as (_ & _ & H).
  assert (Ht : targets_of example_languages (example_params grin "es" 0) = [es])
    by (vm_compute; reflexivity).
  destruct (H en) as (resp & Hrun & _ & Hl).
  - vm_compute; reflexivity.
  - rewrite Ht. discriminate.
  - rewrite Ht. intros t Hin. apply list_elem_of_singleton in Hin. subst t.
    exists hola_translator. vm_compute; reflexivity.
  - exists resp. split; [exact Hrun|]. apply Hl. rewrite Ht. by left.
Defined.

(** C1, the claim as worded: the one-emoji text sent with the loaded
    target French, to which English has no translator, is not passed
    through; the request fails, without any engine call. *)
Lemma passthrough_counterexample :
  detect_translatable grin = false ∧
  read_params dec_int same_code (json_request grin "en" "fr" None) =
    inr (example_params grin "fr" 0) ∧
  targets_of example_languages (example_params grin "fr" 0) = [fr] ∧
  example_translate hola_translator (json_request grin "en" "fr" None) [] =
    ([], inl (HTTPException 500
                (lit "Cannot translate text: 400 Bad Request: Frenchs (frs) is not available as a target language from Englishs (ens)s"))).
Proof. repeat split; vm_compute; reflexivity. Qed.

Lemma passthrough_source_is_english_witness :
  read_params dec_int same_code (json_request grin "es" "fr" None) =
    inr {| is_json := true; q := grin; source_lang := Str (lit "es");
           target_lang := Str (lit "fr"); num_alternatives := 0 |} ∧
  ∃ d, example_translate hola_translator (json_request grin "es" "fr" None) [] =
         ([], inl (HTTPException 500 d)).
Proof.
  assert (Hp : read_params dec_int same_code (json_request grin "es" "fr" None) =
               inr {| is_json := true; q := grin; source_lang := Str (lit "es");
                      target_lang := Str (lit "fr"); num_alternatives := 0 |})
    by (vm_compute; reflexivity).
  split; [exact Hp|].
  destruct (passthrough_source_is_english dec_int same_code plain_formatting
              no_escapes short_repr example_languages
              (pair_en_es hola_translator) _ _ [] Hp)
    as (_ & _ & _ & H); [vm_compute; reflexivity|].
  apply (H en fr); [vm_compute; reflexivity | | vm_compute; reflexivity].
  apply list_elem_of_filter. split; [vm_compute; reflexivity|].
  right. right. left.
Defined.

Lemma engine_failure_aborts_batch_witness :
  example_translate picky_translator (json_request greetings "en" "es" None) [] =
    ([{| call_target := lit "es"; call_text := Str (lit "Hi"); call_count := 1 |};
      hello_call 1],
     inl (HTTPException 500 (lit "Cannot translate text: booms"))) ∧
  pair_result plain_formatting no_escapes (pair_en_es picky_translator)
    en es true 0 (Str (lit "Bye")) = inl (EngineException (lit "boom")) ∧
  ∃ earlier t1 x1 later e1,
    batch_pairs (targets_of example_languages (example_params greetings "es" 0))
      (src_texts (example_params greetings "es" 0)) =
      earlier ++ (t1, x1) :: later ∧
    Forall (λ tx, ∃ r, pair_result plain_formatting no_escapes
                         (pair_en_es picky_translator) en tx.1 true 0 tx.2 =
                       inr r) earlier ∧
    pair_result plain_formatting no_escapes (pair_en_es picky_translator)
      en t1 true 0 x1 = inl e1 ∧
    example_translate picky_translator (json_request greetings "en" "es" None) [] =
      ([] ++ concat ((λ tx, pair_calls plain_formatting no_escapes
                              (pair_en_es picky_translator) en tx.1 true 0 tx.2)
                       <$> earlier)
          ++ pair_calls plain_formatting no_escapes (pair_en_es picky_translator)
               en t1 true 0 x1,
       inl (HTTPException 500
              (lit "Cannot translate text: " ++ exn_str e1 ++ lit "s"))).
Proof.
  split; [vm_compute; reflexivity|].
  assert (He : pair_result plain_formatting no_escapes
                 (pair_en_es picky_translator) en es true 0 (Str (lit "Bye")) =
               inl (EngineException (lit "boom")))
    by (vm_compute; reflexivity).
  split; [exact He|].
  apply (engine_failure_aborts_batch dec_int same_code plain_formatting
           no_escapes short_repr example_languages (pair_en_es picky_translator)
           (json_request greetings "en" "es" None)
           (example_params greetings "es" 0)
           en [] es (Str (lit "Bye")) (EngineException (lit "boom"))).
  - vm_compute; reflexivity.
  - vm_compute; reflexivity.
  - apply list_elem_of_filter. split; [vm_compute; reflexivity|].
    right. left.
  - right. right. left.
  - exact He.
Defined.

(** C5, the claim as worded: the engine raises on the text ["Hello"]; the
    request is aborted with the description ["Cannot translate text:
    booms"], which carries the exception's message and does not name the
    failing text. *)
Lemma engine_failure_counterexample :
  example_translate boom_translator (json_request hello "en" "es" None) [] =
    ([hello_call 1],
     inl (HTTPException 500 (lit "Cannot translate text: booms"))) ∧
  ¬ names_text (lit "Cannot translate text: booms") (lit "Hello").
Proof.
  split; [vm_compute; reflexivity|].
  intros (pre & post & H).
  assert (Hin : 72 ∈ lit "Cannot translate text: booms").
  { rewrite H. apply elem_of_app. right. apply elem_of_app. left. left. }
  revert Hin.
  apply (bool_decide_eq_false_1 (72 ∈ lit "Cannot translate text: booms")).
  vm_compute. reflexivity.
Qed.

Lemma alternatives_spec_witness :
  translate_batch plain_formatting no_escapes (pair_en_es hola_translator)
    en [es] true 2 [Str (lit "Hello")] [] =
    ([hello_call 3],
     inr ({[ lit "es" := [Str (lit "Hola")] ]}, [[lit "Buenas"]])) ∧
  length [[lit "Buenas"]] = 1%nat ∧
  ∀ alts, alts ∈ [[lit "Buenas"]] →
    Z.of_nat (length alts) ≤ 2 ∧ NoDup alts ∧ (lit "Hola" ∉ alts) ∧ ([] ∉ alts).
Proof.
  assert (H : translate_batch plain_formatting no_escapes
                (pair_en_es hola_translator) en [es] true 2
                [Str (lit "Hello")] [] =
              ([hello_call 3],
               inr ({[ lit "es" := [Str (lit "Hola")] ]}, [[lit "Buenas"]])))
    by (vm_compute; reflexivity).
  split; [exact H|].
  destruct (alternatives_spec plain_formatting no_escapes
              (pair_en_es hola_translator) en [es] 2 [Str (lit "Hello")]
              [] [hello_call 3] {[ lit "es" := [Str (lit "Hola")] ]}
              [[lit "Buenas"]]) as [Hlen Halts]; [| exact H |].
  - intros t tr text hs Hg Hh. unfold pair_en_es in Hg.
    destruct (_ && _); [|discriminate Hg]. injection Hg as <-.
    simpl in Hh. injection Hh as <-. simpl. lia.
  - split; [exact Hlen|]. intros alts Hin.
    destruct (Halts alts Hin)
      as (t & text & tr & h0 & rest & Ht & Htext & Hg & Hh & _ & Hl & Hn & Hp & He & _).
    apply list_elem_of_singleton in Ht, Htext. subst t text.
    vm_compute in Hg. injection Hg as <-. vm_compute in Hh.
    injection Hh as <- <-. auto.
Defined.

Lemma unavailable_pair_surfaces_as_500_witness :
  (example_translate hola_translator (json_request hello "en" "fr" None) []).2 =
    inl (HTTPException 500
           (lit "Cannot translate text: 400 Bad Request: Frenchs (frs) is not available as a target language from Englishs (ens)s")).
Proof.
  apply (unavailable_pair_surfaces_as_500 dec_int same_code plain_formatting
           no_escapes short_repr example_languages (pair_en_es hola_translator)
           (json_request hello "en" "fr" None) (example_params hello "fr" 0)
           en fr [] []); vm_compute; reflexivity.
Defined.

Lemma alternatives_not_a_number_witness :
  example_translate hola_translator
    (json_request hello "en" "es" (Some (JStr (lit "abc")))) [] =
    ([], inl (ValueError (lit "invalid literal for int() with base 10"))) ∧
  example_translate hola_translator
    (form_request "Hello" "en" "es" (Some "abc")) [] =
    ([], inl (HTTPException 400
                (lit "Invalid request: `alternatives` parameter is not a number"))).
Proof.
  destruct (alternatives_not_a_number dec_int same_code plain_formatting
              no_escapes short_repr example_languages
              (pair_en_es hola_translator)) as [Hjson Hform].
  split.
  - apply (Hjson _ (lit "abc")); vm_compute; reflexivity.
  - apply (Hform _ (lit "abc")
             (lit "invalid literal for int() with base 10"));
      vm_compute; reflexivity.
Defined.

(** ** Further properties of the module *)

(** *** The emoji table and the classifier *)

Lemma scan_chars_app s1 s2 :
  scan_chars (s1 ++ s2) = scan_chars s1 || scan_chars s2.
Proof.
  induction s1 as [|c s1 IH]; [reflexivity|]. simpl.
  destruct (in_emojis c); simpl; [exact IH | reflexivity].
Qed.

Lemma py_any_app {A} (f : A → bool) l1 l2 :
  py_any f (l1 ++ l2) = py_any f l1 || py_any f l2.
Proof.
  induction l1 as [|x l1 IH]; [reflexivity|]. simpl.
  destruct (f x); simpl; [reflexivity | exact IH].
Qed.

(** X1. The emoji table holds exactly the space and the code points of the
    nine ranges, each without its upper bound: the last code point of
    every named block (the variation selector U+FE0F among them) is not
    in the table, and neither are the line feed and the tab; a string that
    holds one of them anywhere is translatable. *)
Theorem emoji_table_spec :
  (∀ c, is_Some (emojis !! c) ↔ decorative c) ∧
  (∀ c, c ∈ [0x1F64F; 0x1F5FF; 0x1F6FF; 0x26FF; 0x27BF; 0xFE0F; 0x1F9FF;
             0x1F1FF; 0x20FF; 0x0A; 0x09] →
        emojis !! c = None ∧
        ∀ s1 s2, detect_translatable (Str (s1 ++ c :: s2)) = true).
Proof.
  assert (H : ∀ c, is_Some (emojis !! c) ↔ decorative c).
  { intros c. rewrite emojis_lookup_is_Some. apply elem_of_emoji_codes. }
  split; [exact H|].
  intros c Hc.
  assert (Hn : emojis !! c = None).
  { apply eq_None_not_Some. rewrite H. unfold decorative.
    rewrite !elem_of_cons, elem_of_nil in Hc. lia. }
  split; [exact Hn|].
  intros s1 s2. cbn [detect_translatable]. apply scan_chars_true.
  exists c. split; [rewrite elem_of_app, elem_of_cons; auto|].
  apply in_emojis_None. exact Hn.
Qed.

(** X2. The classification composes: a concatenation of strings, or of
    lists of segments, is translatable iff one of the parts is; a
    one-element list is classified as its element; and a list of strings
    is classified as the string they concatenate to, so cutting a text
    into segments never changes the verdict. *)
Theorem detect_translatable_compose :
  (∀ s1 s2, detect_translatable (Str (s1 ++ s2)) =
            detect_translatable (Str s1) || detect_translatable (Str s2)) ∧
  (∀ l1 l2, detect_translatable (Lst (l1 ++ l2)) =
            detect_translatable (Lst l1) || detect_translatable (Lst l2)) ∧
  (∀ t, detect_translatable (Lst [t]) = detect_translatable t) ∧
  (∀ ss : list str, detect_translatable (Lst (Str <$> ss)) =
                    detect_translatable (Str (concat ss))).
Proof.
  split; [|split; [|split]].
  - intros s1 s2. cbn [detect_translatable]. apply scan_chars_app.
  - intros l1 l2. cbn [detect_translatable]. apply py_any_app.
  - intros t. cbn [detect_translatable py_any].
    destruct (detect_translatable t); reflexivity.
  - intros ss. induction ss as [|s ss IH]; [reflexivity|].
    cbn [detect_translatable] in *. rewrite fmap_cons. cbn [concat py_any].
    rewrite scan_chars_app. cbn [detect_translatable].
    destruct (scan_chars s); [reflexivity | exact IH].
Qed.

(** *** [filter_unique] *)

Lemma filter_unique_from_id seen l :
  NoDup l → (∀ x, x ∈ l → x ∉ seen) → filter_unique_from seen l = l.
Proof.
  revert seen. induction l as [|x l IH]; intros seen Hnd Hs; [reflexivity|].
  simpl. apply NoDup_cons in Hnd as [Hx Hnd].
  destruct (decide (x ∈ seen)) as [Hin|_].
  { exfalso. apply (Hs x); [by left | exact Hin]. }
  f_equal. apply IH; [exact Hnd|].
  intros y Hy. rewrite elem_of_union, elem_of_singleton.
  intros [->|Hin]; [contradiction|]. apply (Hs y); [by right | exact Hin].
Qed.

(** X3. [filter_unique seq extra] keeps exactly the elements of [seq] other
    than [extra] and the empty string; it leaves alone a list that has no
    duplicates and holds neither of the two; and filtering its own result
    again changes nothing. *)
Theorem filter_unique_spec seq extra :
  (∀ x, x ∈ filter_unique seq extra ↔ x ∈ seq ∧ x ≠ extra ∧ x ≠ []) ∧
  (NoDup seq → extra ∉ seq → [] ∉ seq → filter_unique seq extra = seq) ∧
  filter_unique (filter_unique seq extra) extra = filter_unique seq extra.
Proof.
  split; [intros x; apply elem_of_filter_unique|].
  assert (Hid : ∀ l, NoDup l → extra ∉ l → [] ∉ l → filter_unique l extra = l).
  { intros l Hnd He Hn. unfold filter_unique. apply filter_unique_from_id;
      [exact Hnd|].
    intros x Hx. rewrite elem_of_union, !elem_of_singleton.
    intros [->| ->]; contradiction. }
  split; [apply Hid|]. apply Hid.
  - apply NoDup_filter_unique_from.
  - rewrite elem_of_filter_unique. tauto.
  - rewrite elem_of_filter_unique. tauto.
Qed.

(** *** The limits *)

Lemma get_req_api_key_inl req e :
  get_req_api_key req = inl e →
  req = JsonRequest None ∧ e = HTTPException 400 (lit "Invalid JSON format").
Proof.
  destruct req as [[d|]|values]; simpl; try discriminate.
  intros [= <-]. auto.
Qed.

(** X4. [get_char_limit] answers the principal's own character limit when
    the key database knows the request's key and holds a limit for it,
    and the default in every other case (no database, no key, unknown
    key, no limit stored); it fails only when a database is configured
    and the JSON body is not an object, with status 400. *)
Theorem get_char_limit_spec db default_limit req :
  (no_override db req → get_char_limit db default_limit req = ret default_limit) ∧
  (∀ rate char_limit,
     has_override db req (rate, Some char_limit) →
     get_char_limit db default_limit req = ret char_limit) ∧
  (∀ rate,
     has_override db req (rate, None) →
     get_char_limit db default_limit req = ret default_limit) ∧
  (∀ e, get_char_limit db default_limit req = inl e ↔
        is_Some db ∧ req = JsonRequest None ∧
        e = HTTPException 400 (lit "Invalid JSON format")).
Proof.
  split; [|split; [|split]].
  - unfold no_override, get_char_limit. destruct db as [lookup|]; [|reflexivity].
    destruct (get_req_api_key req) as [e|api_key]; [intros []|].
    cbn [rbind]. intros [-> | Hl]; [reflexivity|].
    destruct (opt_truthy str_truthy api_key); [|reflexivity].
    rewrite Hl. reflexivity.
  - intros rate cl (lookup & api_key & -> & Hk & Ht & Hl).
    unfold get_char_limit. rewrite Hk. simpl. rewrite Ht, Hl. reflexivity.
  - intros rate (lookup & api_key & -> & Hk & Ht & Hl).
    unfold get_char_limit. rewrite Hk. simpl. rewrite Ht, Hl. reflexivity.
  - intros e. unfold get_char_limit. destruct db as [lookup|].
    + destruct (get_req_api_key req) as [e'|api_key] eqn:Hk; cbn [rbind].
      * apply get_req_api_key_inl in Hk as [-> ->]. split.
        -- intros [= <-]. eauto.
        -- intros (_ & _ & ->). reflexivity.
      * split.
        -- destruct (opt_truthy str_truthy api_key); [|discriminate].
           destruct (lookup (default [] api_key)) as [[r [c|]]|]; discriminate.
        -- intros (_ & -> & _). discriminate Hk.
    + split; [discriminate|]. intros ([? H] & _). discriminate H.
Qed.

(** X5. In [get_req_limits] a principal's override replaces the default
    limit altogether (the result no longer depends on it).  With a
    database configured and a JSON body that is not an object the call
    aborts with status 400 before any arithmetic, and with an integer
    multiplier that is its only failure.  Without a database the request
    is not even read: the result is [int(default_limit * multiplier)],
    the exact product for an integer multiplier. *)
Theorem get_req_limits_spec db F default_limit db_multiplier multiplier m req :
  (∀ lim other_default,
     has_override db req lim →
     get_req_limits db F default_limit db_multiplier multiplier req =
     get_req_limits db F other_default db_multiplier multiplier req) ∧
  (is_Some db ∧ req = JsonRequest None →
     get_req_limits db F default_limit db_multiplier multiplier req =
     inl (HTTPException 400 (lit "Invalid JSON format"))) ∧
  (∀ e, get_req_limits db F default_limit db_multiplier (IntMult m) req = inl e ↔
        is_Some db ∧ req = JsonRequest None ∧
        e = HTTPException 400 (lit "Invalid JSON format")) ∧
  get_req_limits None F default_limit db_multiplier multiplier req =
    int_times F default_limit multiplier ∧
  get_req_limits None F default_limit db_multiplier (IntMult m) req =
    ret (default_limit * m).
Proof.
  split; [|split; [|split; [|split; reflexivity]]].
  - intros lim d' Hov. by rewrite !(get_req_limits_override _ _ _ _ _ _ _ Hov).
  - intros [[lookup ->] ->]. reflexivity.
  - intros e. unfold get_req_limits. destruct db as [lookup|].
    + destruct (get_req_api_key req) as [e'|api_key] eqn:Hk; cbn [rbind].
      * apply get_req_api_key_inl in Hk as [-> ->]. split.
        -- intros [= <-]. eauto.
        -- intros (_ & _ & ->). reflexivity.
      * split.
        -- destruct (opt_truthy str_truthy api_key); [|discriminate].
           destruct (lookup (default [] api_key)); discriminate.
        -- intros (_ & -> & _). discriminate Hk.
    + split; [discriminate|]. intros ([? H] & _). discriminate H.
Qed.

Lemma length_range a b : length (range a b) = Z.to_nat (b - a).
Proof. unfold range. apply length_seqZ. Qed.

Lemma lookup_range a b i n :
  range a b !! i = Some n ↔ n = a + Z.of_nat i ∧ Z.of_nat i < b - a.
Proof. unfold range. apply lookup_seqZ. Qed.

Lemma lookup_hourly_fmap (l : list Z) i r :
  (hourly_limits <$> l) !! i = Some r ↔ ∃ n, r = hourly_limits n ∧ l !! i = Some n.
Proof.
  rewrite list_lookup_fmap. destruct (l !! i) as [m|]; simpl; split.
  - intros [= <-]. eauto.
  - intros (n & -> & [= ->]). reflexivity.
  - discriminate.
  - intros (n & _ & [=]).
Qed.

(** The built sequence, written out. *)
Lemma get_routes_limits_eq args :
  get_routes_limits args =
  minute_limits ::
  (hourly_limits <$>
     (if decide (hourly_req_limit args > 0)
      then range 1 (hourly_req_limit_decay args + 2) else [])) ++
  (if decide (daily_req_limit args > 0) then [daily_limits] else []).
Proof.
  unfold get_routes_limits.
  destruct (decide (hourly_req_limit args > 0));
    destruct (decide (daily_req_limit args > 0)); simpl;
    rewrite ?app_nil_r; reflexivity.
Qed.

(** X6. The built sequence is pinned position by position: the minute rule
    stands at position 0 and nowhere else; the hourly rule of [n] stands at
    position [n], for [n = 1 .. decay + 1] when the hourly limit is
    positive, and nowhere else; the daily rule stands at the last position
    when the daily limit is positive, and nowhere else.  The sequence has
    one rule, plus [decay + 1] hourly rules when the hourly limit is
    positive (none for a negative number of decay steps), plus one when
    the daily limit is positive. *)
Theorem get_routes_limits_shape args :
  (∀ i, get_routes_limits args !! i = Some minute_limits ↔ i = 0%nat) ∧
  (∀ i n, get_routes_limits args !! i = Some (hourly_limits n) ↔
          hourly_req_limit args > 0 ∧ n = Z.of_nat i ∧
          1 ≤ n ≤ hourly_req_limit_decay args + 1) ∧
  (∀ i, get_routes_limits args !! i = Some daily_limits ↔
        daily_req_limit args > 0 ∧ S i = length (get_routes_limits args)) ∧
  length (get_routes_limits args) =
    (1 + (if decide (hourly_req_limit args > 0)%Z
          then Z.to_nat (hourly_req_limit_decay args + 1) else 0)
       + (if decide (daily_req_limit args > 0)%Z then 1 else 0))%nat.
Proof.
  rewrite get_routes_limits_eq.
  set (hs := if decide (hourly_req_limit args > 0)
             then range 1 (hourly_req_limit_decay args + 2) else []).
  set (ds := if decide (daily_req_limit args > 0) then [daily_limits] else []).
  assert (Hlen : length hs =
                 if decide (hourly_req_limit args > 0)
                 then Z.to_nat (hourly_req_limit_decay args + 1) else 0%nat).
  { unfold hs. destruct (decide (hourly_req_limit args > 0)); [|reflexivity].
    rewrite length_range. f_equal. lia. }
  assert (Hhs : ∀ j n, hs !! j = Some n ↔
                  hourly_req_limit args > 0 ∧ n = 1 + Z.of_nat j ∧
                  Z.of_nat j < hourly_req_limit_decay args + 1).
  { intros j n. unfold hs. destruct (decide (hourly_req_limit args > 0)).
    - rewrite lookup_range. split; intros H; repeat split; lia.
    - rewrite lookup_nil. split; [discriminate | intros [? _]; lia]. }
  assert (Hds : ∀ j r, ds !! j = Some r ↔
                  daily_req_limit args > 0 ∧ j = 0%nat ∧ r = daily_limits).
  { intros j r. unfold ds. destruct (decide (daily_req_limit args > 0)).
    - destruct j as [|j]; simpl.
      + split; [intros [= <-]; auto | intros (_ & _ & ->); reflexivity].
      + split; [discriminate | intros (_ & [=] & _)].
    - rewrite lookup_nil. split; [discriminate | intros [? _]; lia]. }
  assert (Hdl : length ds = if decide (daily_req_limit args > 0) then 1%nat else 0%nat).
  { unfold ds. destruct (decide (daily_req_limit args > 0)); reflexivity. }
  clearbody hs ds.
  split; [|split; [|split]].
  - intros [|j]; simpl; [tauto|]. split; [|discriminate].
    intros [H | [_ H]]%lookup_app_Some.
    + apply lookup_hourly_fmap in H as (n & [=] & _).
    + apply Hds in H as (_ & _ & [=]).
  - intros [|j] n; simpl.
    + split; [discriminate | intros (_ & -> & H); simpl in H; lia].
    + rewrite lookup_app_Some, lookup_hourly_fmap, length_fmap. split.
      * intros [(m & [= ->] & H) | [_ H]].
        -- apply Hhs in H. lia.
        -- apply Hds in H as (_ & _ & [=]).
      * intros (Hpos & -> & Hn). left. exists (Z.of_nat (S j)).
        split; [reflexivity|]. apply Hhs. lia.
  - intros j. cbn [length]. rewrite length_app, length_fmap.
    destruct j as [|j]; simpl.
    + split; [discriminate | intros [Hpos H]].
      rewrite Hdl in H. destruct (decide (daily_req_limit args > 0)); lia.
    + rewrite lookup_app_Some, lookup_hourly_fmap, length_fmap, Hds. split.
      * intros [(m & [=] & _) | (Hge & Hpos & Hj & _)].
        split; [exact Hpos|]. rewrite Hdl.
        destruct (decide (daily_req_limit args > 0)); lia.
      * intros [Hpos H]. rewrite Hdl in H. right.
        destruct (decide (daily_req_limit args > 0)); [|lia].
        repeat split; [lia | exact Hpos | lia].
  - cbn [length]. rewrite length_app, length_fmap, Hlen, Hdl. lia.
Qed.

(** X7. With no principal override the minute rule's ceiling is the
    configured per-minute limit (the sentinel for [-1]) and the daily
    rule's ceiling is the configured daily limit itself: the daily
    multiplier (1440 when the variable is unset) scales only a principal's
    own rate, whose ceilings are [rate] per minute and [rate * 1440] per
    day. *)
Theorem minute_daily_ceilings py_int environ db F args req :
  environ !! "LT_DAILY_REQ_LIMIT_MULTIPLIER" = None →
  (no_override db req →
     call_rule py_int environ db F args minute_limits req =
       ret (minute_label (if decide (req_limit args = -1)
                          then 9999999999999 else req_limit args)) ∧
     call_rule py_int environ db F args daily_limits req =
       ret (show (daily_req_limit args) ++ lit " per day")) ∧
  (∀ lim, has_override db req lim →
     call_rule py_int environ db F args minute_limits req =
       ret (minute_label lim.1) ∧
     call_rule py_int environ db F args daily_limits req =
       ret (show (lim.1 * 1440) ++ lit " per day")).
Proof.
  intros He. split.
  - intros Hno. unfold call_rule, env_int. rewrite He. cbn [rbind ret].
    rewrite !(get_req_limits_default _ _ _ _ _ _ Hno).
    cbn [rbind ret int_times]. rewrite !Z.mul_1_r. split; reflexivity.
  - intros lim Hov. unfold call_rule, env_int. rewrite He. cbn [rbind ret].
    rewrite !(get_req_limits_override _ _ _ _ _ _ _ Hov).
    cbn [rbind ret int_times]. rewrite !Z.mul_1_r. split; reflexivity.
Qed.

Lemma minute_daily_ceilings_witness :
  (∅ : gmap string str) !! "LT_DAILY_REQ_LIMIT_MULTIPLIER" = None ∧
  call_rule dec_int ∅ None exact_floats
    {| req_limit := 30; hourly_req_limit := 0; hourly_req_limit_decay := 0;
       daily_req_limit := 5000 |} daily_limits (FormRequest empty_form) =
    ret (show 5000 ++ lit " per day").
Proof.
  split; [apply lookup_empty|].
  destruct (minute_daily_ceilings dec_int ∅ None exact_floats
              {| req_limit := 30; hourly_req_limit := 0;
                 hourly_req_limit_decay := 0; daily_req_limit := 5000 |}
              (FormRequest empty_form) (lookup_empty _)) as [H _].
  exact (proj2 (H I)).
Defined.

(** *** The peer address and the front-end language *)

Lemma before_comma_spec s :
  (44 ∉ before_comma s) ∧
  (before_comma s = s ∨ ∃ tail, s = before_comma s ++ 44 :: tail).
Proof.
  induction s as [|c s [IH1 IH2]]; simpl.
  - split; [apply not_elem_of_nil | by left].
  - destruct (c =? 44) eqn:E.
    + apply Z.eqb_eq in E as ->. split; [apply not_elem_of_nil|].
      right. by exists s.
    + apply Z.eqb_neq in E. split.
      * rewrite elem_of_cons. intros [H|H]; [lia | contradiction].
      * destruct IH2 as [->|[tail Ht]]; [by left|].
        right. exists tail. simpl. by rewrite <- Ht.
Qed.

(** X8. With an [X-Forwarded-For] header the peer address is the first
    header value up to its first comma: it holds no comma and is that
    value or what stands before a comma in it, and [remote_addr] is not
    consulted.  Without the header it is [remote_addr], or ["127.0.0.1"]
    when that is missing or empty, and so never empty. *)
Theorem get_remote_address_spec r :
  (∀ first rest, forwarded_for r = first :: rest →
     (44 ∉ get_remote_address r) ∧
     (get_remote_address r = first ∨
      ∃ tail, first = get_remote_address r ++ 44 :: tail)) ∧
  (forwarded_for r = [] →
     get_remote_address r ≠ [] ∧
     (remote_addr r = Some (get_remote_address r) ∨
      (opt_truthy str_truthy (remote_addr r) = false ∧
       get_remote_address r = lit "127.0.0.1"))).
Proof.
  unfold get_remote_address. split.
  - intros first rest ->. apply before_comma_spec.
  - intros ->. destruct (remote_addr r) as [[|c ip]|]; simpl.
    + split; [discriminate | right; auto].
    + split; [discriminate | left; reflexivity].
    + split; [discriminate | right; auto].
Qed.

(** X9. The front-end source language is the ["auto"] stand-in exactly when
    ["auto"] is configured; otherwise it is the first loaded language with
    the configured code, and the first loaded language of all when no
    loaded language has that code.  It is undefined (an [IndexError]) only
    when no language is loaded and something other than ["auto"] is
    configured. *)
Theorem frontend_source_spec fls languages :
  (fls = lit "auto" → frontend_source fls languages = ret auto_detect) ∧
  (∀ l, frontend_source fls languages = ret l →
        code l = fls ∨
        ((∀ l', l' ∈ languages → code l' ≠ fls) ∧ head languages = Some l)) ∧
  (∀ l, fls ≠ lit "auto" → l ∈ languages → code l = fls →
        ∃ l', frontend_source fls languages = ret l' ∧ l' ∈ languages ∧
              code l' = fls) ∧
  (∀ e, frontend_source fls languages = inl e ↔
        languages = [] ∧ fls ≠ lit "auto" ∧
        e = IndexError (lit "list index out of range")).
Proof.
  unfold frontend_source. split; [|split; [|split]].
  - intros ->. rewrite decide_True by reflexivity. reflexivity.
  - intros l. destruct (decide (fls = lit "auto")) as [->|Hne].
    + intros [= <-]. by left.
    + destruct (head (filter _ languages)) as [l0|] eqn:Eh.
      * intros [= <-]. left. apply head_Some_elem_of in Eh.
        by apply list_elem_of_filter in Eh as [Eh _].
      * intros H. right. apply head_None in Eh. split.
        -- intros l' Hl' Hc.
           assert (Hin : l' ∈ filter (λ l, code l = fls) languages)
             by (apply list_elem_of_filter; auto).
           rewrite Eh in Hin. inversion Hin.
        -- destruct languages as [|l0 ls]; [discriminate H|].
           injection H as <-. reflexivity.
  - intros l Hne Hl Hc. rewrite decide_False by exact Hne.
    destruct (head (filter _ languages)) as [l0|] eqn:Eh.
    + exists l0. split; [reflexivity|]. apply head_Some_elem_of in Eh.
      by apply list_elem_of_filter in Eh as [? ?].
    + apply head_None in Eh.
      assert (Hin : l ∈ filter (λ l, code l = fls) languages)
        by (apply list_elem_of_filter; auto).
      rewrite Eh in Hin. inversion Hin.
  - intros e. destruct (decide (fls = lit "auto")) as [->|Hne].
    + split; [discriminate | intros (_ & H & _); contradiction].
    + destruct (head (filter _ languages)) as [l0|] eqn:Eh.
      * split; [discriminate|]. intros (-> & _). discriminate Eh.
      * destruct languages as [|l0 ls].
        -- split; [intros [= <-]; auto | intros (_ & _ & ->); reflexivity].
        -- split; [discriminate | intros (H & _); discriminate H].
Qed.

(** *** The line normalisation of form requests *)

Lemma splitlines_from_lines after_cr s :
  Forall (λ line, ∀ c, c ∈ line → is_linebreak c = false)
         (splitlines_from after_cr s).
Proof.
  revert after_cr. induction s as [|c s IH]; intros after_cr; simpl.
  - constructor.
  - destruct (after_cr && (c =? 10)); [apply IH|].
    destruct (is_linebreak c) eqn:Ec.
    + constructor; [|apply IH]. intros c' Hc'. inversion Hc'.
    + specialize (IH false).
      destruct (splitlines_from false s) as [|line lines].
      * constructor; [|constructor].
        intros c' ->%list_elem_of_singleton. exact Ec.
      * apply Forall_cons in IH as [Hl Hls]. constructor; [|exact Hls].
        intros c' [->|Hc']%elem_of_cons; [exact Ec | by apply Hl].
Qed.

Lemma elem_of_join sep lines c :
  c ∈ join sep lines → c ∈ sep ∨ ∃ line, line ∈ lines ∧ c ∈ line.
Proof.
  induction lines as [|line lines IH]; simpl.
  - intros H. inversion H.
  - destruct lines as [|line' lines].
    + intros H. right. exists line. split; [by left | exact H].
    + intros [H|[H|H]%elem_of_app]%elem_of_app.
      * right. exists line. split; [by left | exact H].
      * by left.
      * destruct (IH H) as [Hs|(l & Hl & Hc)]; [by left|].
        right. exists l. split; [by right | exact Hc].
Qed.

Lemma length_join_cons sep c line lines :
  length (join sep ((c :: line) :: lines)) = S (length (join sep (line :: lines))).
Proof. destruct lines; reflexivity. Qed.

Lemma length_join_splitlines_from after_cr s :
  (length (join [0x0A%Z] (splitlines_from after_cr s)) +
   match splitlines_from after_cr s with [] => 0 | _ => 1 end
   ≤ length s + 1)%nat.
Proof.
  revert after_cr. induction s as [|c s IH]; intros after_cr.
  - simpl. lia.
  - cbn [splitlines_from length].
    destruct (after_cr && (c =? 10)).
    { specialize (IH false). lia. }
    destruct (is_linebreak c).
    + specialize (IH (c =? 13)).
      destruct (splitlines_from (c =? 13) s) as [|line lines]; [simpl; lia|].
      change (join [10] ([] :: line :: lines))
        with (10 :: join [10] (line :: lines)).
      cbn [length]. lia.
    + specialize (IH false).
      destruct (splitlines_from false s) as [|line lines]; [simpl; lia|].
      rewrite length_join_cons. unfold str in *. lia.
Qed.

(** X10. The text of a form request reaches the loop as one segment in
    which the only line boundary left is the line feed; the segment is
    never longer than the text sent, and a text without line boundaries
    is passed as it is. *)
Theorem form_text_normalised p s :
  is_json p = false → q p = Str s →
  ∃ s', src_texts p = [Str s'] ∧
        (∀ c, c ∈ s' → is_linebreak c = true → c = 0x0A) ∧
        (length s' ≤ length s)%nat ∧
        ((∀ c, c ∈ s → is_linebreak c = false) → s' = s).
Proof.
  intros Hj Hq. exists (join [0x0A] (splitlines s)).
  split; [|split; [|split]].
  - unfold src_texts, normalized_q. rewrite Hj, Hq. reflexivity.
  - intros c Hc Hb. apply elem_of_join in Hc as [Hc|(line & Hl & Hc)].
    + by apply list_elem_of_singleton in Hc.
    + pose proof (splitlines_from_lines false s) as Hf.
      rewrite Forall_forall in Hf. specialize (Hf line Hl c Hc). congruence.
  - unfold splitlines. pose proof (length_join_splitlines_from false s) as H.
    destruct (splitlines_from false s); simpl in *; lia.
  - apply join_splitlines_id.
Qed.

Lemma form_text_normalised_witness :
  ∃ s', src_texts {| is_json := false; q := Str [97; 13; 10; 98; 10];
                     source_lang := Str (lit "en");
                     target_lang := Str (lit "es"); num_alternatives := 0 |}
          = [Str s'] ∧
        (length s' ≤ 5)%nat.
Proof.
  destruct (form_text_normalised
              {| is_json := false; q := Str [97; 13; 10; 98; 10];
                 source_lang := Str (lit "en"); target_lang := Str (lit "es");
                 num_alternatives := 0 |} [97; 13; 10; 98; 10]
              eq_refl eq_refl) as (s' & Hs & _ & Hl & _).
  exists s'. split; [exact Hs | exact Hl].
Defined.

(** *** The handler *)

Lemma filter_ext_in {A} (P Q : A → Prop) `{∀ x, Decision (P x)}
    `{∀ x, Decision (Q x)} (l : list A) :
  (∀ x, x ∈ l → P x ↔ Q x) → filter P l = filter Q l.
Proof.
  induction l as [|x l IH]; intros Hpq; [reflexivity|].
  rewrite !filter_cons.
  assert (Hl : filter P l = filter Q l).
  { apply IH. intros y Hy. apply Hpq. by right. }
  pose proof (Hpq x (list_elem_of_here _ _)) as Hx.
  destruct (decide (P x)), (decide (Q x)); rewrite ?Hl; tauto.
Qed.

Lemma target_selected_list ts l :
  target_selected (Lst ts) l = true ↔ Str (code l) ∈ ts.
Proof.
  simpl. rewrite existsb_exists. split.
  - intros (t & Hin & He). destruct t as [s|]; [|discriminate He].
    simpl in He. apply bool_decide_eq_true in He. subst s.
    by apply list_elem_of_In.
  - intros Hin. exists (Str (code l)). split; [by apply list_elem_of_In|].
    simpl. by apply bool_decide_eq_true.
Qed.

(** X11. The validated targets are the loaded languages whose code was
    asked for, in the order in which the languages are loaded, not in the
    order of the request: codes asked for twice or not loaded add
    nothing, and for a list of codes a language is a target iff its code
    is an element of the list. *)
Theorem targets_follow_registry languages p :
  (targets_of languages p `sublist_of` languages) ∧
  (∀ t, t ∈ targets_of languages p ↔
        t ∈ languages ∧ target_selected (target_lang p) t = true) ∧
  (∀ ts, target_lang p = Lst ts →
     ∀ t, t ∈ targets_of languages p ↔ t ∈ languages ∧ Str (code t) ∈ ts) ∧
  (∀ s, target_lang p = Str s →
     ∀ t, t ∈ targets_of languages p ↔ t ∈ languages ∧ code t = s) ∧
  (NoDup languages → NoDup (targets_of languages p)).
Proof.
  unfold targets_of. split; [apply sublist_filter|].
  assert (H : ∀ t, t ∈ filter (λ l, target_selected (target_lang p) l = true)
                         languages ↔
                   t ∈ languages ∧ target_selected (target_lang p) t = true).
  { intros t. rewrite list_elem_of_filter. tauto. }
  split; [exact H|]. split; [|split].
  - intros ts Hts t. rewrite H, Hts, target_selected_list. tauto.
  - intros s Hs t. rewrite H, Hs. simpl. rewrite bool_decide_eq_true. tauto.
  - apply NoDup_filter.
Qed.

Section TranslateMore.

Variable py_int : str → result Z.
Variable iso2model : option pytext → option pytext.
Variable improve_translation_formatting : pytext → str → str.
Variable unescape : str → str.
Variable repr_list : list pytext → str.
Variable languages : list Language.
Variable get_translation : Language → Language → option Translator.

Local Abbreviation translate_texts' :=
  (translate_texts improve_translation_formatting unescape get_translation).
Local Abbreviation translate_batch' :=
  (translate_batch improve_translation_formatting unescape get_translation).
Local Abbreviation pair_result' :=
  (pair_result improve_translation_formatting unescape get_translation).
Local Abbreviation pair_calls' :=
  (pair_calls improve_translation_formatting unescape get_translation).
Local Abbreviation batch_outcome' :=
  (batch_outcome improve_translation_formatting unescape get_translation).
Local Abbreviation read_params' := (read_params py_int iso2model).
Local Abbreviation find_src_lang' := (find_src_lang languages).
Local Abbreviation targets_of' := (targets_of languages).
Local Abbreviation translate_core' :=
  (translate_core improve_translation_formatting unescape repr_list languages
     get_translation).
Local Abbreviation translate' :=
  (translate py_int iso2model improve_translation_formatting unescape
     repr_list languages get_translation).

Lemma require_falsy x msg :
  opt_truthy text_truthy x = false → require x msg = abort 400 msg.
Proof. unfold require. destruct x as [t|]; simpl; [intros ->|]; reflexivity. Qed.

Lemma require_truthy x msg :
  opt_truthy text_truthy x = true → ∃ t, x = Some t ∧ require x msg = ret t.
Proof.
  unfold require. destruct x as [t|]; simpl; [|discriminate].
  intros ->. eauto.
Qed.

(** X12. The required parameters are checked in the order [q], [source],
    [target], each absence (or empty value) answered with status 400 and
    its own message, before the alternative count is looked at and
    without any engine call; a JSON body that is not an object is
    answered with status 400 before anything is read. *)
Theorem missing_parameters_rejected :
  (∀ log, translate' (JsonRequest None) log =
          (log, inl (HTTPException 400 (lit "Invalid JSON format")))) ∧
  (∀ req r log,
     read_request py_int iso2model req = inr r →
     (opt_truthy text_truthy (r_q r) = false →
      translate' req log =
        (log, inl (HTTPException 400
                     (lit "Invalid request: missing `q` parameter")))) ∧
     (opt_truthy text_truthy (r_q r) = true →
      opt_truthy text_truthy (r_source_lang r) = false →
      translate' req log =
        (log, inl (HTTPException 400
                     (lit "Invalid request: missing `source` parameter")))) ∧
     (opt_truthy text_truthy (r_q r) = true →
      opt_truthy text_truthy (r_source_lang r) = true →
      opt_truthy text_truthy (r_target_lang r) = false →
      translate' req log =
        (log, inl (HTTPException 400
                     (lit "Invalid request: missing `target` parameter"))))) ∧
  (∀ values, ∃ r,
     read_request py_int iso2model (FormRequest values) = inr r ∧
     r_q r = Str <$> f_q values ∧
     r_source_lang r = iso2model (Str <$> f_source values) ∧
     r_target_lang r = iso2model (Str <$> f_target values)).
Proof.
  split; [|split].
  - intros log. by apply translate_read_error.
  - intros req r log Hr.
    assert (Hrp : read_params' req = check_params py_int r).
    { unfold read_params. by rewrite Hr. }
    split; [|split].
    + intros Hq. apply translate_read_error. rewrite Hrp. unfold check_params.
      by rewrite (require_falsy _ _ Hq).
    + intros Hq Hs. apply translate_read_error. rewrite Hrp.
      unfold check_params.
      destruct (require_truthy _ (lit "Invalid request: missing `q` parameter") Hq)
        as (t & _ & ->).
      cbn [rbind ret]. by rewrite (require_falsy _ _ Hs).
    + intros Hq Hs Ht. apply translate_read_error. rewrite Hrp.
      unfold check_params.
      destruct (require_truthy _ (lit "Invalid request: missing `q` parameter") Hq)
        as (t & _ & ->).
      destruct (require_truthy _
                  (lit "Invalid request: missing `source` parameter") Hs)
        as (t' & _ & ->).
      cbn [rbind ret]. by rewrite (require_falsy _ _ Ht).
  - intros values. eexists. split; [reflexivity|]. auto.
Qed.

Lemma translate_texts_log_ok src tgt tr k texts (st : batch_state) log rs :
  collect (pair_result' src tgt tr k) texts = inr rs →
  (translate_texts' src tgt tr k texts st log).1 =
  log ++ concat (pair_calls' src tgt tr k <$> texts).
Proof.
  unfold translate_texts. revert st log rs.
  induction texts as [|text texts IH]; intros st log rs; simpl.
  - intros _. by rewrite app_nil_r.
  - unfold mbind at 1. unfold mbind at 1. rewrite translate_one_run.
    destruct (pair_result' src tgt tr k text) as [e|r]; [discriminate|].
    cbn [rbind]. destruct (collect _ texts) as [e|rs'] eqn:Ec; [discriminate|].
    intros _. unfold mret at 1. rewrite (IH _ _ rs' eq_refl).
    by rewrite <- app_assoc.
Qed.

Lemma translate_batch_log_ok src targets tr k texts (st : batch_state) log rss :
  batch_outcome' src targets tr k texts = inr rss →
  (for_each targets
     (λ tgt_lang (st : batch_state),
        translate_texts' src tgt_lang tr k texts
          (<[code tgt_lang := []]> st.1, st.2)) st log).1 =
  log ++ concat ((λ t, concat (pair_calls' src t tr k <$> texts)) <$> targets).
Proof.
  unfold batch_outcome. revert st log rss.
  induction targets as [|t ts IH]; intros st log rss; simpl.
  - intros _. by rewrite app_nil_r.
  - destruct (collect (pair_result' src t tr k) texts) as [e|rs] eqn:Et;
      [discriminate|].
    cbn [rbind]. destruct (collect _ ts) as [e|rss'] eqn:Ec; [discriminate|].
    intros _. unfold mbind at 1.
    pose proof (translate_texts_log_ok src t tr k texts
                  (<[code t := []]> st.1, st.2) log rs Et) as Hl.
    pose proof (translate_texts_result improve_translation_formatting unescape
                  get_translation src t tr k texts
                  (<[code t := []]> st.1, st.2) log) as Hr.
    destruct (translate_texts' src t tr k texts (<[code t := []]> st.1, st.2) log)
      as [log1 r]. simpl in Hl, Hr. subst log1 r. rewrite Et.
    rewrite (IH _ _ rss' eq_refl). by rewrite <- app_assoc.
Qed.

Lemma concat_singletons {A B} (f : A → B) (l : list A) :
  concat ((λ x, [f x]) <$> l) = f <$> l.
Proof.
  induction l as [|x l IH]; [reflexivity|].
  rewrite !fmap_cons. cbn [concat app]. f_equal. exact IH.
Qed.

Lemma translate_batch_log src targets tr k texts log rss :
  batch_outcome' src targets tr k texts = inr rss →
  (translate_batch' src targets tr k texts log).1 =
  log ++ concat ((λ t, concat (pair_calls' src t tr k <$> texts)) <$> targets).
Proof. unfold translate_batch. apply translate_batch_log_ok. Qed.

(** X13. A translatable request that succeeds has called the engine exactly
    once for every validated target and every segment, in target-major
    order, each time asking for [max(0, alternatives) + 1] candidates (at
    least one), and made no other call. *)
Theorem engine_calls_on_success req p log log' resp :
  read_params' req = inr p →
  translatable p = true →
  translate' req log = (log', inr resp) →
  log' = log ++ batch_calls (targets_of' p) (src_texts p)
                  (num_alternatives p + 1) ∧
  1 ≤ num_alternatives p + 1.
Proof.
  intros Hp Htr Hrun.
  split; [|destruct (read_params_inr _ _ _ _ Hp) as (_ & Hk & _); lia].
  rewrite (translate_run _ _ _ _ _ _ _ _ _ _ Hp) in Hrun.
  unfold translate_core in Hrun.
  destruct (find_src_lang' p) as [src|]; [|discriminate Hrun].
  unfold try_except in Hrun.
  remember (targets_of' p) as targets eqn:Et.
  destruct targets as [|t0 ts]; [discriminate Hrun|].
  unfold mbind in Hrun.
  pose proof (translate_batch_result improve_translation_formatting unescape
                get_translation src (t0 :: ts) (translatable p)
                (num_alternatives p) (src_texts p) log) as Hr.
  destruct (batch_outcome' src (t0 :: ts) (translatable p) (num_alternatives p)
              (src_texts p)) as [e|rss] eqn:Eb.
  { destruct (translate_batch' _ _ _ _ _ _) as [l [e'|st]];
      simpl in Hr; [discriminate Hrun | discriminate Hr]. }
  pose proof (translate_batch_log src (t0 :: ts) (translatable p)
                (num_alternatives p) (src_texts p) log rss Eb) as Hl.
  destruct (translate_batch' src (t0 :: ts) (translatable p)
              (num_alternatives p) (src_texts p) log) as [l [e'|st]];
    [discriminate Hrun|].
  cbn [fst] in Hl. injection Hrun as <- _. rewrite Hl. f_equal.
  unfold batch_calls. f_equal.
  apply batch_outcome_inr in Eb.
  apply list_fmap_ext. intros i t Hi.
  destruct (Forall2_lookup_l _ _ _ _ _ Eb Hi) as (rs & _ & Hf).
  transitivity (concat ((λ text, [{| call_target := code t; call_text := text;
                                      call_count := num_alternatives p + 1 |}])
                          <$> src_texts p)).
  - f_equal. apply list_fmap_ext. intros j text Hj.
    destruct (Forall2_lookup_l _ _ _ _ _ Hf Hj) as (r & _ & Hpr).
    simpl in Hpr. rewrite pair_result_unfold in Hpr.
    rewrite pair_calls_unfold.
    destruct (get_translation src t); [|discriminate Hpr]. by rewrite Htr.
  - apply concat_singletons.
Qed.

(** X14. A request whose source language is not loaded is answered with
    status 400 and ["<source>s is not supported"]; one that asks for no
    loaded target is answered with status 500, the 400 message
    ["<target>s is not supported"] wrapped in it, because that [abort]
    sits inside the [try] block.  Neither calls the engine. *)
Theorem unsupported_language_errors req p log :
  read_params' req = inr p →
  (find_src_lang' p = None →
   translate' req log =
     (log, inl (HTTPException 400
                  (py_str repr_list (source_lang p) ++
                   lit "s is not supported")))) ∧
  (is_Some (find_src_lang' p) → targets_of' p = [] →
   translate' req log =
     (log, inl (HTTPException 500
                  (lit "Cannot translate text: 400 Bad Request: " ++
                   py_str repr_list (target_lang p) ++
                   lit "s is not supported" ++ lit "s")))).
Proof.
  intros Hp. rewrite (translate_run _ _ _ _ _ _ _ _ _ _ Hp).
  unfold translate_core. split.
  - intros ->. reflexivity.
  - intros [src ->] ->. unfold try_except, mabort, lift. simpl.
    rewrite <- !app_assoc. reflexivity.
Qed.

(** X15. Only the languages a target parameter selects matter: two
    requests that differ in the target parameter but select the same
    loaded languages (codes that are not loaded, or repeated, or given in
    another order) are answered alike, provided some target is selected. *)
Theorem unknown_target_codes_ignored p other log :
  (∀ l, l ∈ languages →
        target_selected (target_lang p) l = target_selected other l) →
  targets_of' p ≠ [] →
  translate_core' (with_target p other) log = translate_core' p log.
Proof.
  intros Hsel Hne.
  assert (Ht : targets_of' (with_target p other) = targets_of' p).
  { unfold targets_of. apply filter_ext_in. intros l Hl. simpl.
    by rewrite (Hsel l Hl). }
  unfold translate_core. rewrite Ht.
  change (find_src_lang' (with_target p other)) with (find_src_lang' p).
  destruct (find_src_lang' p) as [src|]; [|reflexivity].
  destruct (targets_of' p) as [|t0 ts]; [contradiction|]. reflexivity.
Qed.

(** X16. A JSON request with a negative (or zero) alternative count is
    handled exactly as the same request without the [alternatives] key:
    the count is clamped to zero. *)
Theorem negative_alternatives_as_zero d n log :
  j_alternatives d = Some (JInt n) → n ≤ 0 →
  translate' (JsonRequest (Some d)) log =
  translate' (JsonRequest (Some (without_alternatives d))) log.
Proof.
  intros Ha Hn. unfold translate. f_equal. f_equal.
  unfold read_params, read_request. cbn [get_json_dict rbind ret].
  rewrite Ha. cbn [without_alternatives j_alternatives j_q j_source j_target
                   default from_option id py_int_json rbind ret].
  unfold check_params.
  cbn [r_q r_source_lang r_target_lang r_num_alternatives r_is_json py_int_raw].
  unfold ret. cbn beta iota.
  replace (Z.max 0 n) with (Z.max 0 0) by lia. reflexivity.
Qed.

(** X17. For a request whose segments are all non-translatable the requested
    source language plays no part once English is loaded: the answer is
    the same whatever source was asked for. *)
Theorem passthrough_ignores_source p other log :
  translatable p = false →
  is_Some (find_src_lang' p) →
  translate_core' (with_source p other) log = translate_core' p log.
Proof.
  intros Hf [src Hs].
  assert (Hf' : translatable (with_source p other) = false) by exact Hf.
  assert (Hd : detected_src_lang (with_source p other) = detected_src_lang p).
  { unfold detected_src_lang. by rewrite Hf, Hf'. }
  assert (Hfind : find_src_lang' (with_source p other) = find_src_lang' p).
  { unfold find_src_lang. by rewrite Hd. }
  unfold translate_core. rewrite Hfind, Hs. reflexivity.
Qed.

End TranslateMore.

(** *** The further properties at the examples *)

Lemma engine_calls_on_success_witness :
  ∃ log' resp,
    example_translate hola_translator
      (json_request (Lst [Str (lit "Hello"); Str (lit "Hi")]) "en" "es"
         (Some (JInt (-2)))) [] = (log', inr resp) ∧
    log' = [] ++ batch_calls [es] [Str (lit "Hello"); Str (lit "Hi")] (0 + 1).
Proof.
  set (req := json_request (Lst [Str (lit "Hello"); Str (lit "Hi")]) "en" "es"
                (Some (JInt (-2)))).
  set (p := example_params (Lst [Str (lit "Hello"); Str (lit "Hi")]) "es" 0).
  assert (Hrun : example_translate hola_translator req [] =
                 ([{| call_target := lit "es"; call_text := Str (lit "Hello");
                      call_count := 1 |};
                   {| call_target := lit "es"; call_text := Str (lit "Hi");
                      call_count := 1 |}],
                  inr (single_answer "es" [Str (lit "Hola"); Str (lit "Hola")])))
    by (vm_compute; reflexivity).
  eexists _, _. split; [exact Hrun|].
  assert (Hp : read_params dec_int same_code req = inr p)
    by (vm_compute; reflexivity).
  assert (Htr : translatable p = true) by (vm_compute; reflexivity).
  destruct (engine_calls_on_success dec_int same_code plain_formatting
              no_escapes short_repr example_languages
              (pair_en_es hola_translator) req p [] _ _ Hp Htr Hrun)
    as [Hlog _].
  rewrite Hlog. vm_compute. reflexivity.
Defined.

Lemma unsupported_language_errors_witness :
  read_params dec_int same_code (json_request hello "de" "es" None) =
    inr {| is_json := true; q := hello; source_lang := Str (lit "de");
           target_lang := Str (lit "es"); num_alternatives := 0 |} ∧
  example_translate hola_translator (json_request hello "de" "es" None) [] =
    ([], inl (HTTPException 400 (lit "des is not supported"))).
Proof.
  assert (Hp : read_params dec_int same_code (json_request hello "de" "es" None) =
               inr {| is_json := true; q := hello; source_lang := Str (lit "de");
                      target_lang := Str (lit "es"); num_alternatives := 0 |})
    by (vm_compute; reflexivity).
  split; [exact Hp|].
  destruct (unsupported_language_errors dec_int same_code plain_formatting
              no_escapes short_repr example_languages
              (pair_en_es hola_translator) _ _ [] Hp) as [H _].
  apply H. vm_compute. reflexivity.
Defined.

Lemma unknown_target_codes_ignored_witness :
  translate_core plain_formatting no_escapes short_repr example_languages
    (pair_en_es hola_translator)
    (with_target (example_params hello "es" 0)
       (Lst [Str (lit "xx"); Str (lit "es"); Str (lit "es")])) [] =
  translate_core plain_formatting no_escapes short_repr example_languages
    (pair_en_es hola_translator) (example_params hello "es" 0) [].
Proof.
  apply (unknown_target_codes_ignored plain_formatting no_escapes short_repr
           example_languages (pair_en_es hola_translator)).
  - intros l Hl. unfold example_languages in Hl.
    rewrite !elem_of_cons, elem_of_nil in Hl.
    destruct Hl as [->|[->|[->|[]]]]; vm_compute; reflexivity.
  - vm_compute. discriminate.
Defined.

Lemma negative_alternatives_as_zero_witness :
  example_translate hola_translator
    (json_request hello "en" "es" (Some (JInt (-3)))) [] =
  example_translate hola_translator (json_request hello "en" "es" None) [].
Proof.
  assert (Hn : -3 ≤ 0) by lia.
  exact (negative_alternatives_as_zero dec_int same_code plain_formatting
           no_escapes short_repr example_languages (pair_en_es hola_translator)
           {| j_q := Some hello; j_source := Some (Str (lit "en"));
              j_target := Some (Str (lit "es"));
              j_alternatives := Some (JInt (-3)); j_api_key := None |}
           (-3) [] eq_refl Hn).
Defined.

Lemma passthrough_ignores_source_witness :
  translate_core plain_formatting no_escapes short_repr example_languages
    (pair_en_es hola_translator)
    (with_source (example_params grin "es" 0) (Str (lit "fr"))) [] =
  translate_core plain_formatting no_escapes short_repr example_languages
    (pair_en_es hola_translator) (example_params grin "es" 0) [].
Proof.
  apply (passthrough_ignores_source plain_formatting no_escapes short_repr
           example_languages (pair_en_es hola_translator)).
  - vm_compute. reflexivity.
  - exists en. vm_compute. reflexivity.
Defined.
